(** * ow_autonomy: the PLEXIL adapter's operation registry and joint telemetry

    A shallow embedding of
      - [ow_plexil/src/plexil-adapter/PlexilInterface.cpp]: the table of lander
        operations ([m_runningOperations]) and its lifecycle calls, and
      - [src/plexil-adapter/OwInterface.cpp]: the service threads
        ([service_call]) and the joint telemetry callback with its overtorque
        sets,
    followed by the properties of the adapter's specification, each settled
    against these definitions. *)

From Stdlib Require Import PrimFloat ZArith.
From stdpp Require Import gmap strings list.

#[local] Set Warnings "-clear-no-such-hyp".
#[local] Open Scope string_scope.
#[local] Open Scope list_scope.
#[local] Open Scope Z_scope.

(** ** Effects shared by both files *)

(** The value of a published fact: [publish] is called with [bool] and with
    [double] values. *)
Inductive Value :=
| VBool (b : bool)
| VReal (x : float).

(** What a call leaves outside its own variables, in program order: the ROS
    log macros, [publish] (subscriber.h) with its state name, value and, in
    the three-argument form, the operation name, and a call of the command
    status callback. *)
Inductive Event :=
| ROS_INFO (msg : string)
| ROS_WARN (msg : string)
| ROS_ERROR (msg : string)
| Publish (state_name : string) (val : Value) (arg : option string)
| CommandStatus (id : Z) (success : bool).

(** C++ faults a call can end in: [std::out_of_range] from [std::map::at];
    an index past the end of a [std::vector] read with [operator[]]; a call
    through a null function pointer; the end of a function that is declared
    to return a value, reached without a [return].  The last three are
    undefined behaviour, taken here as faults that stop the call. *)
Inductive exn :=
| out_of_range
| vector_index_past_end
| null_function_call
| missing_return.

Inductive res (A : Type) :=
| Normal (a : A)
| Raise (e : exn).
Arguments Normal {A} a.
Arguments Raise {A} e.

(** A call runs on a world [W] and ends normally or in a fault; the world
    reached is kept in both cases, as a C++ exception leaves the writes done
    before it in place. *)
Definition M (W A : Type) : Type := W → W * res A.

#[global] Instance M_ret {W} : MRet (M W) := λ A a w, (w, Normal a).
#[global] Instance M_bind {W} : MBind (M W) := λ A B f c w,
  match c w with
  | (w', Normal a) => f a w'
  | (w', Raise e) => (w', Raise e)
  end.

Definition throw {W A} (e : exn) : M W A := λ w, (w, Raise e).
Definition modify {W} (f : W → W) : M W unit := λ w, (f w, Normal tt).
Definition gets {W A} (f : W → A) : M W A := λ w, (w, Normal (f w)).

(** [for (int i = 0; i < n; i++) body(i)] over the indices it visits. *)
Fixpoint for_each {W} (indices : list nat) (body : nat → M W unit) : M W unit :=
  match indices with
  | [] => mret tt
  | i :: rest => body i ;; for_each rest body
  end.

(** [v[i]] on a [std::vector]. *)
Definition vec_at {W A} (v : list A) (i : nat) : M W A :=
  match v !! i with
  | Some x => mret x
  | None => throw vector_index_past_end
  end.

(** The success flag and message a service or action hands back
    ([srv.response.success], [srv.response.message]). *)
Record Outcome := { success : bool; message : string }.

(** The facts of a trace, in order. *)
Definition is_fact (e : Event) : bool :=
  match e with Publish _ _ _ => true | _ => false end.

Definition facts (tr : list Event) : list Event := filter is_fact tr.

(** The facts of a trace that carry the operation name [name]. *)
Definition is_fact_of (name : string) (e : Event) : bool :=
  match e with
  | Publish _ _ (Some n) => bool_decide (n = name)
  | _ => false
  end.

Definition facts_of (name : string) (tr : list Event) : list Event :=
  filter (is_fact_of name) tr.

(** The command status callback's calls in a trace, in order. *)
Fixpoint status_calls (tr : list Event) : list (Z * bool) :=
  match tr with
  | [] => []
  | CommandStatus id ok :: rest => (id, ok) :: status_calls rest
  | _ :: rest => status_calls rest
  end.

Definition is_warning (e : Event) : bool :=
  match e with ROS_WARN _ => true | _ => false end.

(** The spec's ordering of lifecycle facts, as a property of a trace: there
    are positions [i < j < k] holding Running=true, Running=false and
    Finished=true for [name]. *)
Definition lifecycle_ordered (name : string) (tr : list Event) : Prop :=
  ∃ i j k : nat, (i < j)%nat ∧ (j < k)%nat ∧
    tr !! i = Some (Publish "Running" (VBool true) (Some name)) ∧
    tr !! j = Some (Publish "Running" (VBool false) (Some name)) ∧
    tr !! k = Some (Publish "Finished" (VBool true) (Some name)).

(** ** PlexilInterface.cpp *)

Module PlexilInterface.

(** [#define IDLE_ID (-1)]: dummy operation ID that signifies idle lander
    operation. *)
Definition IDLE_ID : Z := -1.

(** The member [m_runningOperations] (operation name to the ID it runs
    under) and the trace of effects. *)
Record World := {
  m_runningOperations : gmap string Z;
  trace : list Event
}.

Definition emit (e : Event) : M World unit :=
  modify (λ w, {| m_runningOperations := m_runningOperations w;
                  trace := trace w ++ [e] |}).

(** [publish (state_name, val, name)]. *)
Definition publish (state_name : string) (val : bool) (name : string)
  : M World unit :=
  emit (Publish state_name (VBool val) (Some name)).

(** [m_runningOperations.at (name)], read. *)
Definition at_ (name : string) : M World Z :=
  λ w, match m_runningOperations w !! name with
       | Some id => (w, Normal id)
       | None => (w, Raise out_of_range)
       end.

(** [m_runningOperations.at (name) = id]. *)
Definition at_assign (name : string) (id : Z) : M World unit :=
  λ w, match m_runningOperations w !! name with
       | Some _ =>
           ({| m_runningOperations := <[name := id]> (m_runningOperations w);
               trace := trace w |}, Normal tt)
       | None => (w, Raise out_of_range)
       end.

(** C's [!x] on an [int], and a [bool] promoted to [int]. *)
Definition lnot (x : Z) : bool := x =? 0.
Definition int_of_bool (b : bool) : Z := if b then 1 else 0.

Definition isLanderOperation (name : string) : M World bool :=
  gets (λ w, bool_decide (is_Some (m_runningOperations w !! name))).

Definition markOperationRunning (name : string) (id : Z) : M World bool :=
  cur ← at_ name;
  if negb (cur =? IDLE_ID) then
    emit (ROS_WARN (name +:+ " already running, ignoring duplicate request.")) ;;
    mret false
  else
    at_assign name id ;;
    publish "Running" true name ;;
    mret true.

(** [markOperationFinished] is declared [bool] and has no [return]: every
    path through it flows off its end, which is undefined behaviour.  What
    the call does then is the build's: it may keep the test [id != IDLE_ID]
    before the callback, as the source has it, or take the path that skips
    the callback, which flows off the end at once, for unreachable and call
    the callback whatever the ID; and the call may come back to its caller,
    with a value that is not specified, or not come back.  [Build] holds
    these two choices; what is proved of [markOperationFinished] is proved
    for every build. *)
Record Build := {
  keeps_id_test : bool;
  returns_to_caller : bool
}.

(** The build that runs the statements as they are written, and the one an
    optimizing compiler makes. *)
Definition as_written : Build :=
  {| keeps_id_test := true; returns_to_caller := true |}.
Definition optimized : Build :=
  {| keeps_id_test := false; returns_to_caller := false |}.

(** Whether the callback is reached: [id != IDLE_ID] where the test is kept,
    always where it is not. *)
Definition callback_reached (build : Build) (id : Z) : bool :=
  negb (id =? IDLE_ID) || negb (keeps_id_test build).

Section Callback.

Variable build : Build.

(** The member [m_commandStatusCallback]: [None] is the [nullptr] the
    constructor leaves, [Some] the function installed by
    [setCommandStatusCallback], which is called with the adapter in the state
    reached at the point of the call. *)
Variable m_commandStatusCallback : option (Z → bool → World → World).

(** The test of its first statement is [! m_runningOperations.at (name) ==
    IDLE_ID]: [!] binds tighter than [==], so it compares the negation,
    promoted to [int], with [IDLE_ID].  Its last statement is the call of
    the callback under [if (id != IDLE_ID)]; then the function ends without
    a [return]. *)
Definition markOperationFinished (name : string) (id : Z) : M World unit :=
  cur ← at_ name;
  (if int_of_bool (lnot cur) =? IDLE_ID then
     emit (ROS_WARN (name +:+ " was not running. Should never happen."))
   else mret tt) ;;
  at_assign name IDLE_ID ;;
  publish "Running" false name ;;
  publish "Finished" true name ;;
  (if callback_reached build id then
     match m_commandStatusCallback with
     | Some callback => modify (callback id true)
     | None => throw null_function_call
     end
   else mret tt) ;;
  if returns_to_caller build then mret tt else throw missing_return.

End Callback.

Definition operationRunning (name : string) : M World bool :=
  cur ← at_ name;
  mret (negb (cur =? IDLE_ID)).

(** [running]: its check of the operation name is a TODO in the source. *)
Definition running (name : string) : M World bool :=
  operationRunning name.

(** [m_runningOperations[name] = IDLE_ID]. *)
Definition registerLanderOperation (name : string) : M World unit :=
  modify (λ w, {| m_runningOperations :=
                    <[name := IDLE_ID]> (m_runningOperations w);
                  trace := trace w |}).

(** A command status callback that does nothing but leave its call in the
    trace. *)
Definition record_status (id : Z) (ok : bool) (w : World) : World :=
  {| m_runningOperations := m_runningOperations w;
     trace := trace w ++ [CommandStatus id ok] |}.

(** The lifecycle calls a client can make, and a run of a list of them that
    goes on after a call that fails. *)
Inductive Call :=
| Begin (name : string) (id : Z)
| End_ (name : string) (id : Z)
| Query (name : string).

Definition is_end_of (name : string) (c : Call) : bool :=
  match c with
  | End_ n _ => bool_decide (n = name)
  | _ => false
  end.

Definition run_call (build : Build) (c : Call) (w : World) : World :=
  match c with
  | Begin n id => (markOperationRunning n id w).1
  | End_ n id => (markOperationFinished build (Some record_status) n id w).1
  | Query n => (running n w).1
  end.

Definition run_calls (build : Build) (cs : list Call) (w : World) : World :=
  foldl (λ w c, run_call build c w) w cs.

(** The callback's calls a run of lifecycle calls is due: one for each end of
    an operation of the registry [reg] that reaches the callback, which an
    end under an ID other than [IDLE_ID] does in every build and an end
    under [IDLE_ID] in a build that has dropped the test of the ID. *)
Fixpoint ends_notified (build : Build) (reg : gmap string Z) (cs : list Call)
  : list (Z * bool) :=
  match cs with
  | [] => []
  | End_ n id :: rest =>
      if bool_decide (is_Some (reg !! n)) && callback_reached build id
      then (id, true) :: ends_notified build reg rest
      else ends_notified build reg rest
  | _ :: rest => ends_notified build reg rest
  end.

End PlexilInterface.

(** ** OwInterface.cpp *)

Module sensor_msgs.

(** The fields of [sensor_msgs::JointState] the callback reads. *)
Record JointState := {
  name : list string;
  position : list float;
  velocity : list float;
  effort : list float
}.

End sensor_msgs.

Module OwInterface.

(** *** Service support *)

(** The service types [ServiceInfo] is instantiated at. *)
Inductive Service :=
| MoveGuarded
| StartPlanning
| PublishTrajectory.

#[global] Instance Service_eq_dec : EqDecision Service.
Proof. solve_decision. Defined.

Definition MoveGuardedService : string := "MoveGuarded".
Definition ArmPlanningService : string := "StartPlanning".
Definition ArmTrajectoryService : string := "PublishTrajectory".

(** [joint_support.h] is not part of the sources at hand; [Joint],
    [JointProperties] and [JointTelemetry] are read off their uses in
    OwInterface.cpp. *)
Inductive Joint :=
| shoulder_yaw
| shoulder_pitch
| proximal_pitch
| distal_pitch
| hand_yaw
| scoop_yaw
| antenna_pan
| antenna_tilt.

#[global] Instance Joint_eq_dec : EqDecision Joint.
Proof. solve_decision. Defined.

Definition Joint_index (j : Joint) : nat :=
  match j with
  | shoulder_yaw => 0 | shoulder_pitch => 1 | proximal_pitch => 2
  | distal_pitch => 3 | hand_yaw => 4 | scoop_yaw => 5
  | antenna_pan => 6 | antenna_tilt => 7
  end%nat.

Definition Joint_of_index (n : nat) : Joint :=
  match n with
  | 0 => shoulder_yaw | 1 => shoulder_pitch | 2 => proximal_pitch
  | 3 => distal_pitch | 4 => hand_yaw | 5 => scoop_yaw
  | 6 => antenna_pan | _ => antenna_tilt
  end%nat.

#[global] Instance Joint_countable : Countable Joint :=
  inj_countable' Joint_index Joint_of_index
    (λ j, match j with
          | shoulder_yaw | shoulder_pitch | proximal_pitch | distal_pitch
          | hand_yaw | scoop_yaw | antenna_pan | antenna_tilt => eq_refl
          end).

Record JointProperties := {
  rosName : string;
  plexilName : string;
  softTorqueLimit : float;
  hardTorqueLimit : float
}.

Record JointTelemetry := {
  position : float;
  velocity : float;
  effort : float
}.

(** The file's static variables ([ServiceInfo<Service>::m_running] for each
    service type, the two overtorque sets, the telemetry map) and the trace
    of effects. *)
Record World := {
  m_running : Service → bool;
  JointsAtHardTorqueLimit : gset string;
  JointsAtSoftTorqueLimit : gset string;
  JointTelemetryMap : gmap Joint JointTelemetry;
  trace : list Event
}.

Definition set_m_running (f : Service → bool) (w : World) : World :=
  {| m_running := f;
     JointsAtHardTorqueLimit := JointsAtHardTorqueLimit w;
     JointsAtSoftTorqueLimit := JointsAtSoftTorqueLimit w;
     JointTelemetryMap := JointTelemetryMap w;
     trace := trace w |}.

Definition set_hard (s : gset string) (w : World) : World :=
  {| m_running := m_running w;
     JointsAtHardTorqueLimit := s;
     JointsAtSoftTorqueLimit := JointsAtSoftTorqueLimit w;
     JointTelemetryMap := JointTelemetryMap w;
     trace := trace w |}.

Definition set_soft (s : gset string) (w : World) : World :=
  {| m_running := m_running w;
     JointsAtHardTorqueLimit := JointsAtHardTorqueLimit w;
     JointsAtSoftTorqueLimit := s;
     JointTelemetryMap := JointTelemetryMap w;
     trace := trace w |}.

Definition set_telemetry (m : gmap Joint JointTelemetry) (w : World) : World :=
  {| m_running := m_running w;
     JointsAtHardTorqueLimit := JointsAtHardTorqueLimit w;
     JointsAtSoftTorqueLimit := JointsAtSoftTorqueLimit w;
     JointTelemetryMap := m;
     trace := trace w |}.

Definition emit (e : Event) : M World unit :=
  modify (λ w, {| m_running := m_running w;
                  JointsAtHardTorqueLimit := JointsAtHardTorqueLimit w;
                  JointsAtSoftTorqueLimit := JointsAtSoftTorqueLimit w;
                  JointTelemetryMap := JointTelemetryMap w;
                  trace := trace w ++ [e] |}).

(** [publish (state_name, val, name)] and [publish (state_name, val)]. *)
Definition publish (state_name : string) (val : bool) (name : string)
  : M World unit :=
  emit (Publish state_name (VBool val) (Some name)).

Definition publish_real (state_name : string) (val : float) : M World unit :=
  emit (Publish state_name (VReal val) None).

(** [ServiceInfo<Service>]: [is_running], [start], [stop]. *)
Definition is_running (srv : Service) : M World bool :=
  gets (λ w, m_running w srv).

Definition start (srv : Service) : M World unit :=
  modify (λ w, set_m_running (λ s, if decide (s = srv) then true else m_running w s) w).

Definition stop (srv : Service) : M World unit :=
  modify (λ w, set_m_running (λ s, if decide (s = srv) then false else m_running w s) w).

(** [ServiceRunning]: each service name to the service type whose
    [is_running] it holds. *)
Definition ServiceRunning : gmap string Service :=
  list_to_map [ (MoveGuardedService, MoveGuarded);
                (ArmPlanningService, StartPlanning);
                (ArmTrajectoryService, PublishTrajectory) ].

Definition is_service (name : string) : bool :=
  bool_decide (is_Some (ServiceRunning !! name)).

(** [printf]'s [%d] of a service's boolean success field. *)
Definition show_flag (b : bool) : string := if b then "1" else "0".

(** [service_call<Service> (client, srv, name)].  [reply] stands for the
    blocking [client.call (srv)]: [Some] response when the call returns
    true, [None] when it returns false. *)
Definition service_call (srv : Service) (reply : option Outcome) (name : string)
  : M World unit :=
  r ← is_running srv;
  (if (r : bool) then
     emit (ROS_ERROR ("service_call: " +:+ name +:+
                      " in running state. This shouldn't happen."))
   else start srv) ;;
  publish "Running" true name ;;
  match reply with
  | Some o => emit (ROS_INFO (name +:+ " returned: " +:+ show_flag (success o) +:+
                              ", " +:+ message o))
  | None => emit (ROS_ERROR ("Failed to call service " +:+ name))
  end ;;
  r' ← is_running srv;
  (if negb r' then
     emit (ROS_ERROR ("service_call: " +:+ name +:+
                      " in stopped state. This shouldn't happen."))
   else stop srv) ;;
  publish "Finished" true name.

Definition serviceRunning (name : string) : M World bool :=
  match ServiceRunning !! name with
  | Some srv => is_running srv
  | None => throw out_of_range
  end.

Definition running (name : string) : M World bool :=
  if is_service name then serviceRunning name
  else
    emit (ROS_ERROR ("OwInterface::running: unsupported operation: " +:+ name)) ;;
    mret false.

(** *** Joint and torque support *)

(** [JointMap]: ROS JointStates message name to joint. *)
Definition JointMap : gmap string Joint :=
  list_to_map [ ("j_shou_yaw", shoulder_yaw);
                ("j_shou_pitch", shoulder_pitch);
                ("j_prox_pitch", proximal_pitch);
                ("j_dist_pitch", distal_pitch);
                ("j_hand_yaw", hand_yaw);
                ("j_scoop_yaw", scoop_yaw);
                ("j_ant_pan", antenna_pan);
                ("j_ant_tilt", antenna_tilt) ].

(** [JointPropMap]: the source's [std::map] holds an entry for each of the
    eight joints, so its [operator[]] never creates one; it is read here as a
    total table. *)
Definition JointPropMap (joint : Joint) : JointProperties :=
  match joint with
  | shoulder_yaw => {| rosName := "j_shou_yaw"; plexilName := "ShoulderYaw";
                       softTorqueLimit := 60; hardTorqueLimit := 80 |}
  | shoulder_pitch => {| rosName := "j_shou_pitch"; plexilName := "ShoulderPitch";
                         softTorqueLimit := 60; hardTorqueLimit := 80 |}
  | proximal_pitch => {| rosName := "j_prox_pitch"; plexilName := "ProximalPitch";
                         softTorqueLimit := 60; hardTorqueLimit := 80 |}
  | distal_pitch => {| rosName := "j_dist_pitch"; plexilName := "DistalPitch";
                       softTorqueLimit := 60; hardTorqueLimit := 80 |}
  | hand_yaw => {| rosName := "j_hand_yaw"; plexilName := "HandYaw";
                   softTorqueLimit := 60; hardTorqueLimit := 80 |}
  | scoop_yaw => {| rosName := "j_scoop_yaw"; plexilName := "ScoopYaw";
                    softTorqueLimit := 60; hardTorqueLimit := 80 |}
  | antenna_pan => {| rosName := "j_ant_pan"; plexilName := "AntennaPan";
                      softTorqueLimit := 30; hardTorqueLimit := 30 |}
  | antenna_tilt => {| rosName := "j_ant_tilt"; plexilName := "AntennaTilt";
                       softTorqueLimit := 30; hardTorqueLimit := 30 |}
  end%float.

(** [abs] is [<cmath>]'s absolute value of a [double]; [a >= b] on doubles is
    [b <= a], false when either side is not a number. *)
Definition handle_overtorque (joint : Joint) (effort : float) : M World unit :=
  if (hardTorqueLimit (JointPropMap joint) <=? abs effort)%float then
    modify (λ w : World, set_hard ({[ plexilName (JointPropMap joint) ]} ∪
                           JointsAtHardTorqueLimit w) w)
  else if (softTorqueLimit (JointPropMap joint) <=? abs effort)%float then
    modify (λ w : World, set_soft ({[ plexilName (JointPropMap joint) ]} ∪
                           JointsAtSoftTorqueLimit w) w)
  else
    modify (λ w : World, set_hard (JointsAtHardTorqueLimit w ∖
                           {[ plexilName (JointPropMap joint) ]}) w) ;;
    modify (λ w : World, set_soft (JointsAtSoftTorqueLimit w ∖
                           {[ plexilName (JointPropMap joint) ]}) w).

Definition handle_joint_fault (joint : Joint) (joint_index : nat)
    (msg : sensor_msgs.JointState) : M World unit :=
  e ← vec_at (sensor_msgs.effort msg) joint_index;
  handle_overtorque joint e.

(** The body of the callback's loop at index [i]. *)
Definition process_sample (msg : sensor_msgs.JointState) (i : nat) : M World unit :=
  ros_name ← vec_at (sensor_msgs.name msg) i;
  match JointMap !! ros_name with
  | Some joint =>
      p ← vec_at (sensor_msgs.position msg) i;
      v ← vec_at (sensor_msgs.velocity msg) i;
      e ← vec_at (sensor_msgs.effort msg) i;
      modify (λ w, set_telemetry
                     (<[joint := {| position := p; velocity := v; effort := e |}]>
                        (JointTelemetryMap w)) w) ;;
      publish_real (plexilName (JointPropMap joint) +:+ "Velocity") v ;;
      publish_real (plexilName (JointPropMap joint) +:+ "Effort") e ;;
      publish_real (plexilName (JointPropMap joint) +:+ "Position") p ;;
      handle_joint_fault joint i msg
  | None =>
      emit (ROS_ERROR ("jointStatesCallback: unsupported joint " +:+ ros_name))
  end.

(** [for (int i = 0; i < JointMap.size(); i++)]. *)
Definition jointStatesCallback (msg : sensor_msgs.JointState) : M World unit :=
  for_each (seq 0 (size JointMap)) (process_sample msg).

Definition hardTorqueLimitReached (joint_name : string) (w : World) : bool :=
  bool_decide (joint_name ∈ JointsAtHardTorqueLimit w).

Definition softTorqueLimitReached (joint_name : string) (w : World) : bool :=
  bool_decide (joint_name ∈ JointsAtSoftTorqueLimit w).

(** The world before any service has run and any message has arrived. *)
Definition initial : World :=
  {| m_running := λ _, false;
     JointsAtHardTorqueLimit := ∅;
     JointsAtSoftTorqueLimit := ∅;
     JointTelemetryMap := ∅;
     trace := [] |}.

(** A run of [handle_overtorque] over a list of samples, oldest first. *)
Definition ingest (samples : list (Joint * float)) (w : World) : World :=
  foldl (λ w s, (handle_overtorque s.1 s.2 w).1) w samples.

(** *** The rest of the service support *)

(** What [service_client_ok] asks of a [ros::ServiceClient]: the answers of
    [client.exists()] and [client.isValid()] at the time of the call. *)
Record ServiceClient := {
  client_exists : bool;
  client_isValid : bool
}.

Definition service_client_ok (client : ServiceClient) : M World bool :=
  if negb (client_exists client) then
    emit (ROS_ERROR "Service client does not exist!") ;;
    mret false
  else if negb (client_isValid client) then
    emit (ROS_ERROR "Service client is invalid!") ;;
    mret false
  else mret true.

(** [service_available<Service> (name)]. *)
Definition service_available (srv : Service) (name : string) : M World bool :=
  r ← is_running srv;
  if (r : bool) then
    emit (ROS_WARN ("Service " +:+ name +:+ " already running, ignoring request.")) ;;
    mret false
  else mret true.

(** The three entry points that start a service.  Each builds its client and
    request and hands them to a detached [std::thread] running
    [service_call]; the thread started, if any, is the result, as the service
    type and name [service_call] is given.  [client] stands for the client
    the entry point has just created. *)
Definition startPlanningDemo (client : ServiceClient)
  : M World (option (Service * string)) :=
  a ← service_available StartPlanning ArmPlanningService;
  if negb a then mret None
  else
    ok ← service_client_ok client;
    if (ok : bool) then mret (Some (StartPlanning, ArmPlanningService))
    else mret None.

(** The availability test of [moveGuarded] is
    [service_available<ow_lander::StartPlanning>(MoveGuardedService)]. *)
Definition moveGuarded (client : ServiceClient)
  : M World (option (Service * string)) :=
  a ← service_available StartPlanning MoveGuardedService;
  if negb a then mret None
  else
    ok ← service_client_ok client;
    if (ok : bool) then mret (Some (MoveGuarded, MoveGuardedService))
    else mret None.

Definition moveGuardedDemo (client : ServiceClient)
  : M World (option (Service * string)) :=
  moveGuarded client.

(** The availability test of [publishTrajectoryDemo] is
    [service_available<ow_lander::StartPlanning>(ArmTrajectoryService)]. *)
Definition publishTrajectoryDemo (client : ServiceClient)
  : M World (option (Service * string)) :=
  a ← service_available StartPlanning ArmTrajectoryService;
  if negb a then mret None
  else
    ok ← service_client_ok client;
    if (ok : bool) then mret (Some (PublishTrajectory, ArmTrajectoryService))
    else mret None.

Definition serviceFinished (name : string) : M World bool :=
  r ← serviceRunning name;
  mret (negb r).

Definition finished (name : string) : M World bool :=
  if is_service name then serviceFinished name
  else
    emit (ROS_ERROR ("OwInterface::finished: unsupported operation: " +:+ name)) ;;
    mret false.

(** A run of [jointStatesCallback] over the messages received, oldest
    first, going on after a callback that ends in a fault. *)
Definition receive (msgs : list sensor_msgs.JointState) (w : World) : World :=
  foldl (λ w msg, (jointStatesCallback msg w).1) w msgs.

End OwInterface.

(** ** Definitions on the specification's side *)

(** The severity tier of a sample, in the specification's words: Hard if
    [|effort| ≥ hardLimit], else Soft if [|effort| ≥ softLimit], else
    Nominal. *)
Inductive Tier :=
| Nominal
| Soft
| Hard.

Definition tier (softLimit hardLimit effort : float) : Tier :=
  if (hardLimit <=? abs effort)%float then Hard
  else if (softLimit <=? abs effort)%float then Soft
  else Nominal.

(** The tier of a sample of [joint], against that joint's two limits. *)
Definition tier_of_joint (joint : OwInterface.Joint) (effort : float) : Tier :=
  tier (OwInterface.softTorqueLimit (OwInterface.JointPropMap joint))
       (OwInterface.hardTorqueLimit (OwInterface.JointPropMap joint)) effort.

(** The tier a channel is seen in through the two queries, Hard superseding
    Soft. *)
Definition observed_tier (joint_name : string) (w : OwInterface.World) : Tier :=
  if OwInterface.hardTorqueLimitReached joint_name w then Hard
  else if OwInterface.softTorqueLimitReached joint_name w then Soft
  else Nominal.

(** Events of other activity that reach the trace between two calls on the
    adapter. *)
Definition meanwhile (mid : list Event) (w : PlexilInterface.World)
  : PlexilInterface.World :=
  {| PlexilInterface.m_runningOperations := PlexilInterface.m_runningOperations w;
     PlexilInterface.trace := PlexilInterface.trace w ++ mid |}.

(** The world in which [markOperationFinished] calls the callback, or ends
    when the ID is [IDLE_ID]. *)
Definition finished_world (name : string) (w : PlexilInterface.World)
  : PlexilInterface.World :=
  {| PlexilInterface.m_runningOperations :=
       <[name := PlexilInterface.IDLE_ID]> (PlexilInterface.m_runningOperations w);
     PlexilInterface.trace :=
       PlexilInterface.trace w ++ [Publish "Running" (VBool false) (Some name);
                                   Publish "Finished" (VBool true) (Some name)] |}.

(** A registry holding the one operation "Dig", under the ID [id]. *)
Definition dig_world (id : Z) : PlexilInterface.World :=
  {| PlexilInterface.m_runningOperations := {[ "Dig" := id ]};
     PlexilInterface.trace := [] |}.

(** The specification's claims that the code does not meet, as predicates to
    be refuted on concrete inputs. *)

(** A successful [markOperationRunning] leaves the operation running. *)
Definition begin_marks_running (name : string) (id : Z)
    (w : PlexilInterface.World) : Prop :=
  ∀ w1, PlexilInterface.markOperationRunning name id w = (w1, Normal true) →
        (PlexilInterface.running name w1).2 = Normal true.

(** The callback is handed the success flag of the invocation's outcome, in
    some build at least. *)
Definition notifies_outcome (o : Outcome) (name : string) (id : Z)
    (w : PlexilInterface.World) : Prop :=
  ∃ build,
    status_calls
      (PlexilInterface.trace
         (PlexilInterface.markOperationFinished build
            (Some PlexilInterface.record_status) name id w).1)
    = status_calls (PlexilInterface.trace w) ++ [(id, success o)].

(** Finishing an operation that is idle calls no callback, in some build at
    least. *)
Definition silent_when_idle (name : string) (id : Z)
    (w : PlexilInterface.World) : Prop :=
  ∃ build,
    PlexilInterface.m_runningOperations w !! name = Some PlexilInterface.IDLE_ID →
    status_calls
      (PlexilInterface.trace
         (PlexilInterface.markOperationFinished build
            (Some PlexilInterface.record_status) name id w).1)
    = status_calls (PlexilInterface.trace w).

(** Registering a name already present fails and leaves the registry as it
    was. *)
Definition register_rejects_duplicate (name : string)
    (w : PlexilInterface.World) : Prop :=
  is_Some (PlexilInterface.m_runningOperations w !! name) →
  ∃ e, PlexilInterface.registerLanderOperation name w = (w, Raise e).

(** No joint is in both overtorque sets. *)
Definition fault_sets_disjoint (w : OwInterface.World) : Prop :=
  OwInterface.JointsAtHardTorqueLimit w ## OwInterface.JointsAtSoftTorqueLimit w.

(** ** The operation registry *)

Section Registry.

Import PlexilInterface.

#[local] Ltac run :=
  unfold running, markOperationRunning, markOperationFinished, operationRunning,
    registerLanderOperation, record_status, publish, emit, at_assign, at_,
    modify, gets, throw, mbind, M_bind, mret, M_ret in *;
  simpl in *.

(** The test guarding the warning of [markOperationFinished] holds for no
    stored ID. *)
Lemma finished_test_never_holds (cur : Z) :
  (int_of_bool (lnot cur) =? IDLE_ID) = false.
Proof. unfold int_of_bool, IDLE_ID. by destruct (lnot cur). Qed.

(** An ID other than [IDLE_ID] reaches the callback in every build. *)
Lemma callback_reached_id (build : Build) (id : Z) :
  id ≠ IDLE_ID → callback_reached build id = true.
Proof.
  intros Hid. unfold callback_reached.
  by destruct (Z.eqb_spec id IDLE_ID).
Qed.

Lemma markOperationRunning_unknown (name : string) (id : Z) (w : World) :
  m_runningOperations w !! name = None →
  markOperationRunning name id w = (w, Raise out_of_range).
Proof. intros Hn. run. by rewrite Hn. Qed.

Lemma markOperationRunning_busy (name : string) (id cur : Z) (w : World) :
  m_runningOperations w !! name = Some cur → cur ≠ IDLE_ID →
  markOperationRunning name id w =
    ({| m_runningOperations := m_runningOperations w;
        trace := trace w ++
          [ROS_WARN (name +:+ " already running, ignoring duplicate request.")] |},
     Normal false).
Proof.
  intros Hn Hc. run. rewrite Hn.
  destruct (Z.eqb_spec cur IDLE_ID) as [->|_]; [done|]. done.
Qed.

Lemma markOperationRunning_idle (name : string) (id : Z) (w : World) :
  m_runningOperations w !! name = Some IDLE_ID →
  markOperationRunning name id w =
    ({| m_runningOperations := <[name := id]> (m_runningOperations w);
        trace := trace w ++ [Publish "Running" (VBool true) (Some name)] |},
     Normal true).
Proof. intros Hn. run. by repeat (rewrite Hn; simpl). Qed.

Lemma markOperationFinished_unknown build cb (name : string) (id : Z) (w : World) :
  m_runningOperations w !! name = None →
  markOperationFinished build cb name id w = (w, Raise out_of_range).
Proof. intros Hn. run. by rewrite Hn. Qed.

(** A registered operation, a callback installed: the call goes through its
    writes and facts, reaches the callback or not, and ends as the build
    has it. *)
Lemma markOperationFinished_known build cb (name : string) (id cur : Z)
    (w : World) :
  m_runningOperations w !! name = Some cur →
  markOperationFinished build (Some cb) name id w =
    ((if callback_reached build id then cb id true (finished_world name w)
      else finished_world name w),
     if returns_to_caller build then Normal tt else Raise missing_return).
Proof.
  intros Hn. unfold finished_world. run. rewrite Hn.
  rewrite finished_test_never_holds. simpl. repeat (rewrite Hn; simpl).
  rewrite <- app_assoc. simpl.
  by destruct (callback_reached build id), (returns_to_caller build).
Qed.

(** With no callback installed, a call that reaches the callback ends in a
    call through the null pointer, after the writes and the two facts. *)
Lemma markOperationFinished_no_callback build (name : string) (id cur : Z)
    (w : World) :
  m_runningOperations w !! name = Some cur →
  markOperationFinished build None name id w =
    (finished_world name w,
     if callback_reached build id then Raise null_function_call
     else if returns_to_caller build then Normal tt else Raise missing_return).
Proof.
  intros Hn. unfold finished_world. run. rewrite Hn.
  rewrite finished_test_never_holds. simpl. repeat (rewrite Hn; simpl).
  rewrite <- app_assoc. simpl.
  by destruct (callback_reached build id), (returns_to_caller build).
Qed.

Lemma operationRunning_known (name : string) (cur : Z) (w : World) :
  m_runningOperations w !! name = Some cur →
  running name w = (w, Normal (negb (cur =? IDLE_ID))).
Proof. intros Hn. run. by rewrite Hn. Qed.

Lemma operationRunning_unknown (name : string) (w : World) :
  m_runningOperations w !! name = None →
  running name w = (w, Raise out_of_range).
Proof. intros Hn. run. by rewrite Hn. Qed.

Lemma status_calls_app (l1 l2 : list Event) :
  status_calls (l1 ++ l2) = status_calls l1 ++ status_calls l2.
Proof.
  induction l1 as [|e l1 IH]; [done|].
  destruct e; simpl; by rewrite ?IH.
Qed.

Lemma running_world (name : string) (w : World) : (running name w).1 = w.
Proof.
  destruct (m_runningOperations w !! name) as [cur|] eqn:Hn.
  - by rewrite (operationRunning_known name cur w Hn).
  - by rewrite (operationRunning_unknown name w Hn).
Qed.

Lemma markOperationFinished_registry build (name : string) (id cur : Z)
    (w : World) :
  m_runningOperations w !! name = Some cur →
  m_runningOperations (markOperationFinished build (Some record_status) name id w).1
  = <[name := IDLE_ID]> (m_runningOperations w).
Proof.
  intros Hn. rewrite (markOperationFinished_known build _ name id cur w Hn).
  by destruct (callback_reached build id).
Qed.

Lemma markOperationFinished_trace build (name : string) (id cur : Z) (w : World) :
  m_runningOperations w !! name = Some cur →
  trace (markOperationFinished build (Some record_status) name id w).1
  = trace w ++ [Publish "Running" (VBool false) (Some name);
                Publish "Finished" (VBool true) (Some name)]
            ++ (if callback_reached build id then [CommandStatus id true] else []).
Proof.
  intros Hn. rewrite (markOperationFinished_known build _ name id cur w Hn).
  destruct (callback_reached build id); simpl; [|done].
  by rewrite <- app_assoc.
Qed.

(** A call that is not the end of [name] leaves a running [name] as it is. *)
Lemma run_call_keeps_running build (name : string) (v : Z) (c : Call) (w : World) :
  m_runningOperations w !! name = Some v → v ≠ IDLE_ID →
  is_end_of name c = false →
  m_runningOperations (run_call build c w) !! name = Some v.
Proof.
  intros Hn Hv Hc. destruct c as [n id|n id|n]; simpl.
  - destruct (m_runningOperations w !! n) as [cur|] eqn:Hl.
    + destruct (decide (cur = IDLE_ID)) as [->|Hcur].
      * rewrite (markOperationRunning_idle n id w Hl). simpl.
        rewrite lookup_insert_ne; [done|]. intros ->. congruence.
      * by rewrite (markOperationRunning_busy n id cur w Hl Hcur).
    + by rewrite (markOperationRunning_unknown n id w Hl).
  - simpl in Hc. apply bool_decide_eq_false in Hc.
    destruct (m_runningOperations w !! n) as [cur|] eqn:Hl.
    + rewrite (markOperationFinished_registry build n id cur w Hl).
      by rewrite lookup_insert_ne.
    + by rewrite (markOperationFinished_unknown build _ n id w Hl).
  - by rewrite running_world.
Qed.

Lemma run_calls_keep_running build (name : string) (v : Z) (cs : list Call)
    (w : World) :
  m_runningOperations w !! name = Some v → v ≠ IDLE_ID →
  forallb (λ c, negb (is_end_of name c)) cs = true →
  m_runningOperations (run_calls build cs w) !! name = Some v.
Proof.
  revert w. induction cs as [|c cs IH]; intros w Hn Hv Hcs; [done|].
  simpl in Hcs. apply andb_true_iff in Hcs as [Hc Hcs].
  apply negb_true_iff in Hc.
  unfold run_calls. simpl. apply IH; [|done|done].
  by apply run_call_keeps_running.
Qed.

(** C1, amended.  For a registered operation and any ID: when the operation
    is running, [markOperationRunning] returns false, leaves the registry as
    it is and publishes no fact; when it is idle, the call returns true,
    stores the ID and publishes Running=true, and nothing else.  When the ID
    is not [IDLE_ID], [running] then answers true through every run of calls
    that holds no end of this operation, and false after its end, whatever
    the build makes of the end of [markOperationFinished]. *)
Theorem markOperationRunning_spec (build : Build) (name : string) (id cur : Z)
    (w : World) :
  m_runningOperations w !! name = Some cur →
  (cur ≠ IDLE_ID →
     (markOperationRunning name id w).2 = Normal false ∧
     m_runningOperations (markOperationRunning name id w).1 = m_runningOperations w ∧
     facts (trace (markOperationRunning name id w).1) = facts (trace w)) ∧
  (cur = IDLE_ID →
     (markOperationRunning name id w).2 = Normal true ∧
     m_runningOperations (markOperationRunning name id w).1
       = <[name := id]> (m_runningOperations w) ∧
     trace (markOperationRunning name id w).1
       = trace w ++ [Publish "Running" (VBool true) (Some name)] ∧
     (id ≠ IDLE_ID →
      ∀ cs, forallb (λ c, negb (is_end_of name c)) cs = true →
        (running name (run_calls build cs (markOperationRunning name id w).1)).2
          = Normal true ∧
        ∀ id', (running name (run_call build (End_ name id')
                  (run_calls build cs (markOperationRunning name id w).1))).2
          = Normal false)).
Proof.
  intros Hn. split.
  - intros Hcur. rewrite (markOperationRunning_busy name id cur w Hn Hcur). simpl.
    split; [done|]. split; [done|].
    unfold facts. rewrite filter_app. apply app_nil_r.
  - intros ->. rewrite (markOperationRunning_idle name id w Hn). simpl.
    split; [done|]. split; [done|]. split; [done|]. intros Hid cs Hcs.
    set (w1 := {| m_runningOperations := <[name:=id]> (m_runningOperations w);
                  trace := trace w ++ [Publish "Running" (VBool true) (Some name)] |}).
    assert (Hrun : m_runningOperations (run_calls build cs w1) !! name = Some id).
    { apply run_calls_keep_running; [|done|done]. simpl. apply lookup_insert_eq. }
    split.
    + rewrite (operationRunning_known name id _ Hrun). simpl.
      by destruct (Z.eqb_spec id IDLE_ID).
    + intros id'. simpl.
      assert (Hend : m_runningOperations
                (markOperationFinished build (Some record_status) name id'
                   (run_calls build cs w1)).1
                !! name = Some IDLE_ID).
      { rewrite (markOperationFinished_registry build name id' id _ Hrun).
        apply lookup_insert_eq. }
      by rewrite (operationRunning_known name IDLE_ID _ Hend).
Qed.

Lemma markOperationRunning_spec_witness :
  (markOperationRunning "Dig" 42 (dig_world IDLE_ID)).2 = Normal true ∧
  trace (markOperationRunning "Dig" 42 (dig_world IDLE_ID)).1
    = [Publish "Running" (VBool true) (Some "Dig")] ∧
  (running "Dig" (run_calls optimized [Query "Dig"; Begin "Dig" 43]
                    (markOperationRunning "Dig" 42 (dig_world IDLE_ID)).1)).2
    = Normal true.
Proof.
  assert (Hn : m_runningOperations (dig_world IDLE_ID) !! "Dig" = Some IDLE_ID)
    by reflexivity.
  assert (Hid : 42 ≠ IDLE_ID) by (unfold IDLE_ID; lia).
  destruct (markOperationRunning_spec optimized "Dig" 42 IDLE_ID
              (dig_world IDLE_ID) Hn) as [_ Hidle].
  destruct (Hidle eq_refl) as (Hret & _ & Htr & Huntil).
  split; [exact Hret|]. split; [exact Htr|].
  exact (proj1 (Huntil Hid [Query "Dig"; Begin "Dig" 43] eq_refl)).
Defined.

(** C1, as stated, fails for the ID [IDLE_ID]: the call succeeds and the
    operation is not running afterwards. *)
Lemma begin_with_idle_id_not_running :
  ¬ begin_marks_running "Dig" IDLE_ID (dig_world IDLE_ID).
Proof.
  intros H. specialize (H _ eq_refl). vm_compute in H. discriminate.
Qed.

(** C2.  [markOperationFinished] never logs its warning, whatever the state
    of the operation: the warnings of the trace are the same before and
    after every call.  Finishing the idle operation "Dig" leaves its two
    facts and the callback's call in the trace and no warning, with the
    operation idle. *)
Theorem markOperationFinished_never_warns (build : Build) :
  (∀ (name : string) (id : Z) (w : World),
     filter is_warning
       (trace (markOperationFinished build (Some record_status) name id w).1)
     = filter is_warning (trace w)) ∧
  trace (markOperationFinished build (Some record_status) "Dig" 7
           (dig_world IDLE_ID)).1
    = [Publish "Running" (VBool false) (Some "Dig");
       Publish "Finished" (VBool true) (Some "Dig");
       CommandStatus 7 true] ∧
  m_runningOperations
    (markOperationFinished build (Some record_status) "Dig" 7 (dig_world IDLE_ID)).1
    !! "Dig" = Some IDLE_ID.
Proof.
  split; [|split; by destruct build as [[] []]].
  intros name id w.
  destruct (m_runningOperations w !! name) as [cur|] eqn:Hn.
  - rewrite (markOperationFinished_trace build name id cur w Hn).
    rewrite !filter_app. simpl.
    destruct (callback_reached build id); simpl; by rewrite app_nil_r.
  - by rewrite (markOperationFinished_unknown build _ name id w Hn).
Qed.

(** C3, amended.  For a registered operation and an ID other than [IDLE_ID],
    [markOperationFinished] calls the callback once with the ID and the
    constant true, in every build, and whatever callback is installed it is
    called on the world the two facts have reached.  For the ID [IDLE_ID]
    the callback is skipped by a build that keeps the test of the ID and
    called with [IDLE_ID] and true by one that does not. *)
Theorem markOperationFinished_notifies (build : Build) (name : string)
    (id cur : Z) (w : World) :
  m_runningOperations w !! name = Some cur →
  status_calls (trace (markOperationFinished build (Some record_status) name id w).1)
    = status_calls (trace w)
      ++ (if callback_reached build id then [(id, true)] else []) ∧
  (id ≠ IDLE_ID →
     status_calls
       (trace (markOperationFinished build (Some record_status) name id w).1)
       = status_calls (trace w) ++ [(id, true)] ∧
     ∀ cb, (markOperationFinished build (Some cb) name id w).1
           = cb id true (finished_world name w)) ∧
  (id = IDLE_ID →
     status_calls
       (trace (markOperationFinished build (Some record_status) name id w).1)
       = status_calls (trace w)
         ++ (if keeps_id_test build then [] else [(IDLE_ID, true)])).
Proof.
  intros Hn.
  assert (Hcalls : status_calls
      (trace (markOperationFinished build (Some record_status) name id w).1)
    = status_calls (trace w)
      ++ (if callback_reached build id then [(id, true)] else [])).
  { rewrite (markOperationFinished_trace build name id cur w Hn).
    rewrite !status_calls_app. simpl.
    by destruct (callback_reached build id). }
  split; [exact Hcalls|]. split.
  - intros Hid. rewrite Hcalls. rewrite (callback_reached_id build id Hid).
    split; [done|]. intros cb.
    rewrite (markOperationFinished_known build cb name id cur w Hn).
    by rewrite (callback_reached_id build id Hid).
  - intros ->. rewrite Hcalls. unfold callback_reached. simpl.
    by destruct (keeps_id_test build).
Qed.

Lemma markOperationFinished_notifies_witness :
  status_calls
    (trace (markOperationFinished optimized (Some record_status) "Dig" 42
              (dig_world 42)).1)
    = [(42, true)].
Proof.
  assert (Hid : 42 ≠ IDLE_ID) by (unfold IDLE_ID; lia).
  exact (proj1 (proj1 (proj2 (markOperationFinished_notifies optimized "Dig" 42 42
                                (dig_world 42) eq_refl)) Hid)).
Defined.

(** C3, as stated, fails for an invocation that reports failure: in every
    build the callback is still handed true. *)
Lemma failure_outcome_not_notified :
  ¬ notifies_outcome {| success := false; message := "arm fault" |}
      "Dig" 42 (dig_world 42).
Proof.
  intros [[[] []] H]; vm_compute in H; discriminate.
Qed.

(** C9, amended.  Finishing an operation that is already idle still calls
    the callback, once and with true, when the ID is not [IDLE_ID], in every
    build.  A call of [markOperationFinished], whatever the operation and
    its state, adds at most one call of the callback. *)
Theorem markOperationFinished_idle_notifies (build : Build) (name : string)
    (id : Z) (w : World) :
  (m_runningOperations w !! name = Some IDLE_ID → id ≠ IDLE_ID →
   status_calls
     (trace (markOperationFinished build (Some record_status) name id w).1)
     = status_calls (trace w) ++ [(id, true)]) ∧
  (length (status_calls
             (trace (markOperationFinished build (Some record_status) name id w).1))
   ≤ length (status_calls (trace w)) + 1)%nat.
Proof.
  split.
  - intros Hn Hid.
    rewrite (markOperationFinished_trace build name id IDLE_ID w Hn).
    rewrite !status_calls_app. simpl.
    by rewrite (callback_reached_id build id Hid).
  - destruct (m_runningOperations w !! name) as [cur|] eqn:Hn.
    + rewrite (markOperationFinished_trace build name id cur w Hn).
      rewrite !status_calls_app, !length_app. simpl.
      destruct (callback_reached build id); simpl; lia.
    + rewrite (markOperationFinished_unknown build _ name id w Hn). simpl. lia.
Qed.

Lemma markOperationFinished_idle_notifies_witness :
  status_calls (trace (markOperationFinished as_written (Some record_status)
                         "Dig" 42 (dig_world IDLE_ID)).1) = [(42, true)].
Proof.
  assert (Hid : 42 ≠ IDLE_ID) by (unfold IDLE_ID; lia).
  exact (proj1 (markOperationFinished_idle_notifies as_written "Dig" 42
                  (dig_world IDLE_ID)) eq_refl Hid).
Defined.

(** C9, as stated, fails: in every build the idle operation "Dig" finished
    under the ID 42 calls the callback. *)
Lemma idle_finish_notifies :
  ¬ silent_when_idle "Dig" 42 (dig_world IDLE_ID).
Proof.
  intros [[[] []] H]; specialize (H eq_refl); vm_compute in H; discriminate.
Qed.

(** C7, amended.  [registerLanderOperation] never fails: it ends normally
    with the name mapped to [IDLE_ID], every other entry and the trace as
    they were, whether or not the name was registered before; registering
    again changes nothing more. *)
Theorem registerLanderOperation_spec (name : string) (w : World) :
  (registerLanderOperation name w).2 = Normal tt ∧
  m_runningOperations (registerLanderOperation name w).1
    = <[name := IDLE_ID]> (m_runningOperations w) ∧
  trace (registerLanderOperation name w).1 = trace w ∧
  (running name (registerLanderOperation name w).1).2 = Normal false ∧
  registerLanderOperation name (registerLanderOperation name w).1
    = registerLanderOperation name w.
Proof.
  split; [done|]. split; [done|]. split; [done|]. split.
  - assert (Hn : m_runningOperations (registerLanderOperation name w).1 !! name
                 = Some IDLE_ID) by apply lookup_insert_eq.
    by rewrite (operationRunning_known name IDLE_ID _ Hn).
  - run. by rewrite insert_insert_eq.
Qed.

(** C7, as stated, fails: registering "Dig" while it runs under the ID 5
    ends normally and resets it. *)
Lemma duplicate_register_accepted :
  ¬ register_rejects_duplicate "Dig" (dig_world 5).
Proof.
  intros H. destruct H as [e He].
  - exists 5. reflexivity.
  - vm_compute in He. discriminate.
Qed.

(** C8.  On a registry that holds only "Dig", each of [running],
    [markOperationRunning] and [markOperationFinished] called for "NoSuchOp"
    ends in [std::out_of_range], with the registry and the trace as they
    were. *)
Theorem unknown_operation_raises (build : Build) :
  running "NoSuchOp" (dig_world IDLE_ID) = (dig_world IDLE_ID, Raise out_of_range) ∧
  markOperationRunning "NoSuchOp" 7 (dig_world IDLE_ID)
    = (dig_world IDLE_ID, Raise out_of_range) ∧
  markOperationFinished build (Some record_status) "NoSuchOp" 7 (dig_world IDLE_ID)
    = (dig_world IDLE_ID, Raise out_of_range).
Proof. repeat split. Qed.

End Registry.

(** ** Joint telemetry and the overtorque sets *)

Section Telemetry.

Import OwInterface.

#[local] Ltac run :=
  unfold jointStatesCallback, process_sample, handle_joint_fault,
    handle_overtorque, publish_real, publish, emit, vec_at, set_telemetry,
    set_hard, set_soft, modify, gets, throw, mbind, M_bind, mret, M_ret in *;
  simpl in *.

(** [OwInterface::running] checks the name first: for a name that is no
    service it logs an error and answers false. *)
Lemma running_unsupported (name : string) (w : World) :
  is_service name = false →
  running name w =
    ({| m_running := m_running w;
        JointsAtHardTorqueLimit := JointsAtHardTorqueLimit w;
        JointsAtSoftTorqueLimit := JointsAtSoftTorqueLimit w;
        JointTelemetryMap := JointTelemetryMap w;
        trace := trace w ++
          [ROS_ERROR ("OwInterface::running: unsupported operation: " +:+ name)] |},
     Normal false).
Proof. intros Hs. unfold running. by rewrite Hs. Qed.

(** Distinct joints have distinct PLEXIL names. *)
Lemma plexilName_inj (j1 j2 : Joint) :
  plexilName (JointPropMap j1) = plexilName (JointPropMap j2) → j1 = j2.
Proof. destruct j1, j2; simpl; intros H; first [reflexivity | discriminate H]. Qed.

Lemma handle_overtorque_normal (joint : Joint) (e : float) (w : World) :
  (handle_overtorque joint e w).2 = Normal tt.
Proof.
  run. destruct (_ <=? _)%float; [done|]. by destruct (_ <=? _)%float.
Qed.

(** The two sets after [handle_overtorque], by the tier of the sample. *)
Lemma handle_overtorque_sets (joint : Joint) (e : float) (w : World) :
  (JointsAtHardTorqueLimit (handle_overtorque joint e w).1,
   JointsAtSoftTorqueLimit (handle_overtorque joint e w).1)
  = match tier_of_joint joint e with
    | Hard => ({[ plexilName (JointPropMap joint) ]} ∪ JointsAtHardTorqueLimit w,
               JointsAtSoftTorqueLimit w)
    | Soft => (JointsAtHardTorqueLimit w,
               {[ plexilName (JointPropMap joint) ]} ∪ JointsAtSoftTorqueLimit w)
    | Nominal => (JointsAtHardTorqueLimit w ∖ {[ plexilName (JointPropMap joint) ]},
                  JointsAtSoftTorqueLimit w ∖ {[ plexilName (JointPropMap joint) ]})
    end.
Proof.
  unfold tier_of_joint, tier. run.
  destruct (_ <=? _)%float; [done|]. by destruct (_ <=? _)%float.
Qed.

(** [handle_overtorque] writes nothing but the two sets. *)
Lemma handle_overtorque_rest (joint : Joint) (e : float) (w : World) :
  trace (handle_overtorque joint e w).1 = trace w ∧
  JointTelemetryMap (handle_overtorque joint e w).1 = JointTelemetryMap w ∧
  m_running (handle_overtorque joint e w).1 = m_running w.
Proof.
  run. destruct (_ <=? _)%float; [done|]. by destruct (_ <=? _)%float.
Qed.

#[local] Set Warnings "-inexact-float".

(** C4.  The tier of a sample decides what [handle_overtorque] does, and the
    tier is a function of the effort's magnitude: a Hard sample leaves the
    joint in the hard set; a Soft one leaves it in the soft set and its
    membership of the hard set as it was; a Nominal one leaves it in neither.
    With the limits 60 and 80, the efforts 59, 60, 79.9, 80 and -85 are
    Nominal, Soft, Soft, Hard and Hard, the shoulder yaw joint is seen in
    these tiers after such a sample, and a following sample of effort 10
    takes it out of both sets. *)
Theorem handle_overtorque_tier :
  (∀ (joint : Joint) (effort : float) (w : World),
     match tier_of_joint joint effort with
     | Hard =>
         hardTorqueLimitReached (plexilName (JointPropMap joint))
           (handle_overtorque joint effort w).1 = true
     | Soft =>
         softTorqueLimitReached (plexilName (JointPropMap joint))
           (handle_overtorque joint effort w).1 = true ∧
         hardTorqueLimitReached (plexilName (JointPropMap joint))
           (handle_overtorque joint effort w).1
         = hardTorqueLimitReached (plexilName (JointPropMap joint)) w
     | Nominal =>
         hardTorqueLimitReached (plexilName (JointPropMap joint))
           (handle_overtorque joint effort w).1 = false ∧
         softTorqueLimitReached (plexilName (JointPropMap joint))
           (handle_overtorque joint effort w).1 = false
     end) ∧
  (∃ f : Joint → float → M World unit,
     ∀ (joint : Joint) (effort : float),
       handle_overtorque joint effort = f joint (abs effort)) ∧
  map (tier 60 80) [59; 60; 79.9; 80; -85]%float
    = [Nominal; Soft; Soft; Hard; Hard] ∧
  map (λ e, observed_tier "ShoulderYaw" (ingest [(shoulder_yaw, e)] initial))
      [59; 60; 79.9; 80; -85]%float
    = [Nominal; Soft; Soft; Hard; Hard] ∧
  map (λ e, observed_tier "ShoulderYaw"
              (ingest [(shoulder_yaw, e); (shoulder_yaw, 10%float)] initial))
      [59; 60; 79.9; 80; -85]%float
    = [Nominal; Nominal; Nominal; Nominal; Nominal] ∧
  (let w := ingest (map (λ e, (shoulder_yaw, e)) [59; 60; 79.9; 80; -85; 10]%float)
                   initial in
   hardTorqueLimitReached "ShoulderYaw" w = false ∧
   softTorqueLimitReached "ShoulderYaw" w = false).
Proof.
  split; [|split; [|repeat split; vm_compute; reflexivity]].
  - intros joint effort w.
    pose proof (handle_overtorque_sets joint effort w) as Hs.
    unfold hardTorqueLimitReached, softTorqueLimitReached.
    destruct (tier_of_joint joint effort); injection Hs as Hh Hso;
      rewrite ?Hh, ?Hso; clear Hh Hso.
    + split; apply bool_decide_eq_false; set_solver.
    + split; [apply bool_decide_eq_true; set_solver|done].
    + apply bool_decide_eq_true; set_solver.
  - exists (λ joint a,
      if (hardTorqueLimit (JointPropMap joint) <=? a)%float then
        modify (λ w : World, set_hard ({[ plexilName (JointPropMap joint) ]} ∪
                               JointsAtHardTorqueLimit w) w)
      else if (softTorqueLimit (JointPropMap joint) <=? a)%float then
        modify (λ w : World, set_soft ({[ plexilName (JointPropMap joint) ]} ∪
                               JointsAtSoftTorqueLimit w) w)
      else
        modify (λ w : World, set_hard (JointsAtHardTorqueLimit w ∖
                               {[ plexilName (JointPropMap joint) ]}) w) ;;
        modify (λ w : World, set_soft (JointsAtSoftTorqueLimit w ∖
                               {[ plexilName (JointPropMap joint) ]}) w)).
    reflexivity.
Qed.

(** C5, amended.  A Hard sample puts the joint in the hard set and leaves the
    soft set as it was; a Soft sample puts it in the soft set and leaves the
    hard set as it was; a Nominal sample takes it out of both.  The two sets
    stay disjoint through a Nominal sample, and through any sample of a joint
    that was in neither set. *)
Theorem handle_overtorque_membership (joint : Joint) (effort : float) (w : World) :
  (JointsAtHardTorqueLimit (handle_overtorque joint effort w).1,
   JointsAtSoftTorqueLimit (handle_overtorque joint effort w).1)
  = match tier_of_joint joint effort with
    | Hard => ({[ plexilName (JointPropMap joint) ]} ∪ JointsAtHardTorqueLimit w,
               JointsAtSoftTorqueLimit w)
    | Soft => (JointsAtHardTorqueLimit w,
               {[ plexilName (JointPropMap joint) ]} ∪ JointsAtSoftTorqueLimit w)
    | Nominal => (JointsAtHardTorqueLimit w ∖ {[ plexilName (JointPropMap joint) ]},
                  JointsAtSoftTorqueLimit w ∖ {[ plexilName (JointPropMap joint) ]})
    end ∧
  (fault_sets_disjoint w →
   tier_of_joint joint effort = Nominal ∨
   (hardTorqueLimitReached (plexilName (JointPropMap joint)) w = false ∧
    softTorqueLimitReached (plexilName (JointPropMap joint)) w = false) →
   fault_sets_disjoint (handle_overtorque joint effort w).1).
Proof.
  pose proof (handle_overtorque_sets joint effort w) as Hs.
  split; [exact Hs|].
  unfold fault_sets_disjoint, hardTorqueLimitReached, softTorqueLimitReached.
  intros Hd Hc.
  destruct (tier_of_joint joint effort); injection Hs as -> ->.
  - set_solver.
  - destruct Hc as [Hc|[Hh Hso]]; [done|].
    apply bool_decide_eq_false in Hh. set_solver.
  - destruct Hc as [Hc|[Hh Hso]]; [done|].
    apply bool_decide_eq_false in Hso. set_solver.
Qed.

Lemma handle_overtorque_membership_witness :
  fault_sets_disjoint (handle_overtorque shoulder_yaw 80 initial).1.
Proof.
  apply (handle_overtorque_membership shoulder_yaw 80 initial).
  - apply (bool_decide_unpack _). vm_compute. exact I.
  - right. split; vm_compute; reflexivity.
Defined.

(** C5, as stated, fails: after a sample of effort 60 and one of effort 80
    the shoulder yaw joint is in both sets. *)
Lemma soft_then_hard_overlap :
  ¬ fault_sets_disjoint (ingest [(shoulder_yaw, 60%float); (shoulder_yaw, 80%float)]
                           initial).
Proof.
  intros H. apply (H "ShoulderYaw"); apply (bool_decide_unpack _);
    vm_compute; exact I.
Qed.

(** A sample of a joint the callback knows: the telemetry entry is
    overwritten, the three values are published, and [handle_overtorque] runs
    on the effort. *)
Lemma process_sample_known (msg : sensor_msgs.JointState) (i : nat)
    (ros_name : string) (joint : Joint) (p v e : float) (w : World) :
  sensor_msgs.name msg !! i = Some ros_name →
  JointMap !! ros_name = Some joint →
  sensor_msgs.position msg !! i = Some p →
  sensor_msgs.velocity msg !! i = Some v →
  sensor_msgs.effort msg !! i = Some e →
  process_sample msg i w =
    handle_overtorque joint e
      {| m_running := m_running w;
         JointsAtHardTorqueLimit := JointsAtHardTorqueLimit w;
         JointsAtSoftTorqueLimit := JointsAtSoftTorqueLimit w;
         JointTelemetryMap :=
           <[joint := {| position := p; velocity := v; effort := e |}]>
             (JointTelemetryMap w);
         trace := trace w ++
           [Publish (plexilName (JointPropMap joint) +:+ "Velocity") (VReal v) None;
            Publish (plexilName (JointPropMap joint) +:+ "Effort") (VReal e) None;
            Publish (plexilName (JointPropMap joint) +:+ "Position") (VReal p) None] |}.
Proof.
  intros Hname Hjoint Hp Hv He.
  unfold process_sample, handle_joint_fault, vec_at, publish_real, emit,
    set_telemetry, modify, throw, mbind, M_bind, mret, M_ret.
  rewrite Hname, Hjoint, Hp, Hv, He. simpl.
  by rewrite <- !app_assoc.
Qed.

(** A sample under a name [JointMap] does not hold is logged and dropped. *)
Lemma process_sample_unknown (msg : sensor_msgs.JointState) (i : nat)
    (ros_name : string) (w : World) :
  sensor_msgs.name msg !! i = Some ros_name →
  JointMap !! ros_name = None →
  process_sample msg i w =
    ({| m_running := m_running w;
        JointsAtHardTorqueLimit := JointsAtHardTorqueLimit w;
        JointsAtSoftTorqueLimit := JointsAtSoftTorqueLimit w;
        JointTelemetryMap := JointTelemetryMap w;
        trace := trace w ++
          [ROS_ERROR ("jointStatesCallback: unsupported joint " +:+ ros_name)] |},
     Normal tt).
Proof.
  intros Hname Hjoint.
  unfold process_sample, vec_at, emit, modify, throw, mbind, M_bind, mret, M_ret.
  by rewrite Hname, Hjoint.
Qed.

(** Whatever a sample holds and however its turn ends, [process_sample]
    leaves a name other than the PLEXIL name of the sample's joint where it
    was in both sets. *)
Lemma process_sample_other (msg : sensor_msgs.JointState) (i : nat)
    (other : string) (w : World) :
  (∀ ros_name joint,
     sensor_msgs.name msg !! i = Some ros_name →
     JointMap !! ros_name = Some joint →
     other ≠ plexilName (JointPropMap joint)) →
  hardTorqueLimitReached other (process_sample msg i w).1
    = hardTorqueLimitReached other w ∧
  softTorqueLimitReached other (process_sample msg i w).1
    = softTorqueLimitReached other w.
Proof.
  intros Hother.
  unfold process_sample, handle_joint_fault, vec_at, publish_real, emit,
    set_telemetry, modify, throw, mbind, M_bind, mret, M_ret.
  destruct (sensor_msgs.name msg !! i) as [ros_name|]; [|done].
  destruct (JointMap !! ros_name) as [joint|] eqn:Hjoint; [|done].
  specialize (Hother ros_name joint eq_refl Hjoint).
  destruct (sensor_msgs.position msg !! i) as [p|]; [|done].
  destruct (sensor_msgs.velocity msg !! i) as [v|]; [|done].
  destruct (sensor_msgs.effort msg !! i) as [e|]; [|done].
  simpl.
  match goal with
  | |- context [handle_overtorque joint e ?w0] =>
      pose proof (handle_overtorque_sets joint e w0) as Hs
  end.
  simpl in Hs. unfold hardTorqueLimitReached, softTorqueLimitReached.
  destruct (tier_of_joint joint e); injection Hs as Hh Hso;
    rewrite Hh, Hso; clear Hh Hso;
    split; apply bool_decide_ext; set_solver.
Qed.

(** A property of the world kept by every turn of a loop is kept by the
    loop, also when a turn ends in a fault. *)
Lemma for_each_invariant {W} (P : W → Prop) (body : nat → M W unit) :
  (∀ i w, P w → P (body i w).1) →
  ∀ indices w, P w → P (for_each indices body w).1.
Proof.
  intros Hbody indices.
  induction indices as [|i rest IH]; intros w Hw; [done|].
  simpl. unfold mbind, M_bind.
  specialize (Hbody i w Hw).
  destruct (body i w) as [w' [[]|e]]; simpl in *; [|done].
  by apply IH.
Qed.

(** The whole callback, however it ends, changes the two sets only at the
    PLEXIL names of the joints its message names. *)
Lemma jointStatesCallback_other (msg : sensor_msgs.JointState)
    (other : string) (w : World) :
  (∀ i ros_name joint,
     sensor_msgs.name msg !! i = Some ros_name →
     JointMap !! ros_name = Some joint →
     other ≠ plexilName (JointPropMap joint)) →
  hardTorqueLimitReached other (jointStatesCallback msg w).1
    = hardTorqueLimitReached other w ∧
  softTorqueLimitReached other (jointStatesCallback msg w).1
    = softTorqueLimitReached other w.
Proof.
  intros Hother. unfold jointStatesCallback.
  apply (for_each_invariant
           (λ w', hardTorqueLimitReached other w' = hardTorqueLimitReached other w ∧
                  softTorqueLimitReached other w' = softTorqueLimitReached other w));
    [|done].
  intros i w' [Hh Hso].
  destruct (process_sample_other msg i other w' (Hother i)) as [Hh' Hso'].
  split; congruence.
Qed.

(** C10.  A sample of a joint the callback knows ends normally and leaves the
    two sets as [handle_overtorque] on that joint and effort alone leaves
    them: every other joint, and every other name, is in each set after the
    sample exactly when it was before, and a message with other positions
    and velocities at that index gives the same two sets. *)
Theorem process_sample_frame (msg : sensor_msgs.JointState) (i : nat)
    (ros_name : string) (joint : Joint) (p v e : float) (w : World) :
  sensor_msgs.name msg !! i = Some ros_name →
  JointMap !! ros_name = Some joint →
  sensor_msgs.position msg !! i = Some p →
  sensor_msgs.velocity msg !! i = Some v →
  sensor_msgs.effort msg !! i = Some e →
  (process_sample msg i w).2 = Normal tt ∧
  JointsAtHardTorqueLimit (process_sample msg i w).1
    = JointsAtHardTorqueLimit (handle_overtorque joint e w).1 ∧
  JointsAtSoftTorqueLimit (process_sample msg i w).1
    = JointsAtSoftTorqueLimit (handle_overtorque joint e w).1 ∧
  (∀ other, other ≠ plexilName (JointPropMap joint) →
     hardTorqueLimitReached other (process_sample msg i w).1
       = hardTorqueLimitReached other w ∧
     softTorqueLimitReached other (process_sample msg i w).1
       = softTorqueLimitReached other w) ∧
  (∀ joint', joint' ≠ joint →
     hardTorqueLimitReached (plexilName (JointPropMap joint'))
       (process_sample msg i w).1
       = hardTorqueLimitReached (plexilName (JointPropMap joint')) w ∧
     softTorqueLimitReached (plexilName (JointPropMap joint'))
       (process_sample msg i w).1
       = softTorqueLimitReached (plexilName (JointPropMap joint')) w) ∧
  (∀ positions velocities p' v',
     positions !! i = Some p' → velocities !! i = Some v' →
     let msg' := {| sensor_msgs.name := sensor_msgs.name msg;
                    sensor_msgs.position := positions;
                    sensor_msgs.velocity := velocities;
                    sensor_msgs.effort := sensor_msgs.effort msg |} in
     JointsAtHardTorqueLimit (process_sample msg' i w).1
       = JointsAtHardTorqueLimit (process_sample msg i w).1 ∧
     JointsAtSoftTorqueLimit (process_sample msg' i w).1
       = JointsAtSoftTorqueLimit (process_sample msg i w).1).
Proof.
  intros Hname Hjoint Hp Hv He.
  assert (Hsets : ∀ (m : sensor_msgs.JointState) (q u : float),
    sensor_msgs.name m !! i = Some ros_name →
    sensor_msgs.position m !! i = Some q →
    sensor_msgs.velocity m !! i = Some u →
    sensor_msgs.effort m !! i = Some e →
    JointsAtHardTorqueLimit (process_sample m i w).1
      = JointsAtHardTorqueLimit (handle_overtorque joint e w).1 ∧
    JointsAtSoftTorqueLimit (process_sample m i w).1
      = JointsAtSoftTorqueLimit (handle_overtorque joint e w).1).
  { intros m q u Hn Hq Hu Hef.
    rewrite (process_sample_known m i ros_name joint q u e w Hn Hjoint Hq Hu Hef).
    match goal with
    | |- context [handle_overtorque joint e ?w0] =>
        pose proof (handle_overtorque_sets joint e w0) as Hs0
    end.
    pose proof (handle_overtorque_sets joint e w) as Hs1.
    simpl in Hs0. rewrite <- Hs1 in Hs0. by injection Hs0. }
  destruct (Hsets msg p v Hname Hp Hv He) as [Hh Hso].
  assert (Hframe : ∀ other, other ≠ plexilName (JointPropMap joint) →
     hardTorqueLimitReached other (process_sample msg i w).1
       = hardTorqueLimitReached other w ∧
     softTorqueLimitReached other (process_sample msg i w).1
       = softTorqueLimitReached other w).
  { intros other Hother.
    unfold hardTorqueLimitReached, softTorqueLimitReached. rewrite Hh, Hso.
    pose proof (handle_overtorque_sets joint e w) as Hs.
    destruct (tier_of_joint joint e); injection Hs as Hh' Hso';
      rewrite Hh', Hso'; clear Hh' Hso';
      split; apply bool_decide_ext; set_solver. }
  split.
  { rewrite (process_sample_known msg i ros_name joint p v e w
               Hname Hjoint Hp Hv He).
    apply handle_overtorque_normal. }
  split; [exact Hh|]. split; [exact Hso|]. split; [exact Hframe|]. split.
  - intros joint' Hne. apply Hframe. intros Heq.
    apply Hne. by apply plexilName_inj.
  - intros positions velocities p' v' Hp' Hv'. simpl.
    destruct (Hsets {| sensor_msgs.name := sensor_msgs.name msg;
                       sensor_msgs.position := positions;
                       sensor_msgs.velocity := velocities;
                       sensor_msgs.effort := sensor_msgs.effort msg |}
                p' v' Hname Hp' Hv' He) as [Hh2 Hso2].
    split; congruence.
Qed.

Lemma process_sample_frame_witness :
  let msg := {| sensor_msgs.name := ["j_shou_yaw"; "j_ant_pan"];
                sensor_msgs.position := [0.5; 1]%float;
                sensor_msgs.velocity := [0; 2]%float;
                sensor_msgs.effort := [85; 5]%float |} in
  (process_sample msg 0 initial).2 = Normal tt ∧
  hardTorqueLimitReached "AntennaPan" (process_sample msg 0 initial).1
    = hardTorqueLimitReached "AntennaPan" initial.
Proof.
  intros msg.
  destruct (process_sample_frame msg 0 "j_shou_yaw" shoulder_yaw 0.5 0 85 initial
              eq_refl eq_refl eq_refl eq_refl eq_refl)
    as (Hret & _ & _ & _ & Hjoints & _).
  split; [exact Hret|].
  refine (proj1 (Hjoints antenna_pan _)). discriminate.
Defined.

End Telemetry.

(** ** The order of the lifecycle facts *)

Section Ordering.

Lemma lifecycle_ordered_intro (name : string) (pre mid post : list Event) :
  lifecycle_ordered name
    (pre ++ [Publish "Running" (VBool true) (Some name)] ++ mid ++
     [Publish "Running" (VBool false) (Some name);
      Publish "Finished" (VBool true) (Some name)] ++ post).
Proof.
  exists (length pre), (length pre + 1 + length mid)%nat,
         (length pre + 1 + length mid + 1)%nat.
  split; [lia|]. split; [lia|]. split; [|split].
  - by apply list_lookup_middle.
  - replace (pre ++ [Publish "Running" (VBool true) (Some name)] ++ mid ++
             [Publish "Running" (VBool false) (Some name);
              Publish "Finished" (VBool true) (Some name)] ++ post)
      with ((pre ++ [Publish "Running" (VBool true) (Some name)] ++ mid) ++
            Publish "Running" (VBool false) (Some name) ::
            (Publish "Finished" (VBool true) (Some name) :: post))
      by (by rewrite <- !app_assoc).
    apply list_lookup_middle. rewrite !length_app. simpl. lia.
  - replace (pre ++ [Publish "Running" (VBool true) (Some name)] ++ mid ++
             [Publish "Running" (VBool false) (Some name);
              Publish "Finished" (VBool true) (Some name)] ++ post)
      with ((pre ++ [Publish "Running" (VBool true) (Some name)] ++ mid ++
             [Publish "Running" (VBool false) (Some name)]) ++
            Publish "Finished" (VBool true) (Some name) :: post)
      by (by rewrite <- !app_assoc).
    apply list_lookup_middle. rewrite !length_app. simpl. lia.
Qed.

(** The facts and callback calls of [service_call]: Running=true, then
    Finished=true, and nothing else. *)
Lemma service_call_facts (srv : OwInterface.Service) (reply : option Outcome)
    (name : string) (w : OwInterface.World) :
  facts (OwInterface.trace (OwInterface.service_call srv reply name w).1)
    = facts (OwInterface.trace w) ++
      [Publish "Running" (VBool true) (Some name);
       Publish "Finished" (VBool true) (Some name)] ∧
  status_calls (OwInterface.trace (OwInterface.service_call srv reply name w).1)
    = status_calls (OwInterface.trace w) ∧
  (OwInterface.service_call srv reply name w).2 = Normal tt.
Proof.
  unfold OwInterface.service_call, OwInterface.is_running, OwInterface.start,
    OwInterface.stop, OwInterface.publish, OwInterface.emit,
    OwInterface.set_m_running, modify, gets, mbind, M_bind, mret, M_ret.
  simpl.
  destruct (OwInterface.m_running w srv) eqn:Hr; destruct reply as [o|]; simpl;
    rewrite ?Hr; repeat case_decide; try done; simpl;
    unfold facts; rewrite !filter_app, !status_calls_app; simpl;
    rewrite ?app_nil_r, <- ?app_assoc; done.
Qed.

(** C6, amended.  An idle operation started by [markOperationRunning] and
    ended by [markOperationFinished], with any events of other activity in
    between, adds Running=true, then those events, then Running=false, then
    Finished=true to the trace.  In every build the callback, whichever is
    installed, is called last and only where it is reached, on a world whose
    registry holds the operation as idle and whose trace already ends in
    Finished=true; under an ID other than [IDLE_ID] it is reached.  A
    service run by [service_call] publishes Running=true and then
    Finished=true, publishes no Running=false, and calls no callback. *)
Theorem lifecycle_facts_in_order (build : PlexilInterface.Build)
    (cb : Z → bool → PlexilInterface.World → PlexilInterface.World)
    (name : string) (id : Z) (w : PlexilInterface.World) (mid : list Event)
    (srv : OwInterface.Service) (reply : option Outcome) (sname : string)
    (ws : OwInterface.World) :
  PlexilInterface.m_runningOperations w !! name = Some PlexilInterface.IDLE_ID →
  let w1 := meanwhile mid (PlexilInterface.markOperationRunning name id w).1 in
  (PlexilInterface.markOperationRunning name id w).2 = Normal true ∧
  (PlexilInterface.markOperationFinished build (Some cb) name id w1).1
    = (if PlexilInterface.callback_reached build id
       then cb id true (finished_world name w1)
       else finished_world name w1) ∧
  (id ≠ PlexilInterface.IDLE_ID →
   (PlexilInterface.markOperationFinished build (Some cb) name id w1).1
     = cb id true (finished_world name w1)) ∧
  PlexilInterface.m_runningOperations (finished_world name w1) !! name
    = Some PlexilInterface.IDLE_ID ∧
  PlexilInterface.trace (finished_world name w1)
    = PlexilInterface.trace w ++
      [Publish "Running" (VBool true) (Some name)] ++ mid ++
      [Publish "Running" (VBool false) (Some name);
       Publish "Finished" (VBool true) (Some name)] ∧
  PlexilInterface.trace
      (PlexilInterface.markOperationFinished build
         (Some PlexilInterface.record_status) name id w1).1
    = PlexilInterface.trace w ++
      [Publish "Running" (VBool true) (Some name)] ++ mid ++
      [Publish "Running" (VBool false) (Some name);
       Publish "Finished" (VBool true) (Some name)] ++
      (if PlexilInterface.callback_reached build id
       then [CommandStatus id true] else []) ∧
  lifecycle_ordered name
    (PlexilInterface.trace
       (PlexilInterface.markOperationFinished build
          (Some PlexilInterface.record_status) name id w1).1) ∧
  facts (OwInterface.trace (OwInterface.service_call srv reply sname ws).1)
    = facts (OwInterface.trace ws) ++
      [Publish "Running" (VBool true) (Some sname);
       Publish "Finished" (VBool true) (Some sname)] ∧
  status_calls (OwInterface.trace (OwInterface.service_call srv reply sname ws).1)
    = status_calls (OwInterface.trace ws).
Proof.
  intros Hn w1. subst w1.
  rewrite (markOperationRunning_idle name id w Hn). simpl.
  set (w1 := meanwhile mid _).
  assert (Hn1 : PlexilInterface.m_runningOperations w1 !! name = Some id)
    by apply lookup_insert_eq.
  assert (Htr : PlexilInterface.trace
      (PlexilInterface.markOperationFinished build
         (Some PlexilInterface.record_status) name id w1).1
    = PlexilInterface.trace w ++
      [Publish "Running" (VBool true) (Some name)] ++ mid ++
      [Publish "Running" (VBool false) (Some name);
       Publish "Finished" (VBool true) (Some name)] ++
      (if PlexilInterface.callback_reached build id
       then [CommandStatus id true] else [])).
  { rewrite (markOperationFinished_trace build name id id w1 Hn1). simpl.
    by rewrite <- !app_assoc. }
  split; [done|].
  rewrite (markOperationFinished_known build cb name id id w1 Hn1). simpl.
  split; [done|].
  split; [intros Hid; by rewrite (callback_reached_id build id Hid)|].
  split; [apply lookup_insert_eq|].
  split; [by rewrite <- !app_assoc|].
  split; [exact Htr|].
  split; [rewrite Htr; apply lifecycle_ordered_intro|].
  destruct (service_call_facts srv reply sname ws) as (Hf & Hs & _).
  by split.
Qed.

Lemma lifecycle_facts_in_order_witness :
  PlexilInterface.trace
    (PlexilInterface.markOperationFinished PlexilInterface.optimized
       (Some PlexilInterface.record_status) "Dig" 42
       (meanwhile [ROS_INFO "sample"]
          (PlexilInterface.markOperationRunning "Dig" 42
             (dig_world PlexilInterface.IDLE_ID)).1)).1
  = [Publish "Running" (VBool true) (Some "Dig");
     ROS_INFO "sample";
     Publish "Running" (VBool false) (Some "Dig");
     Publish "Finished" (VBool true) (Some "Dig");
     CommandStatus 42 true].
Proof.
  destruct (lifecycle_facts_in_order PlexilInterface.optimized
              PlexilInterface.record_status "Dig" 42
              (dig_world PlexilInterface.IDLE_ID) [ROS_INFO "sample"]
              OwInterface.MoveGuarded None "MoveGuarded" OwInterface.initial
              eq_refl)
    as (_ & _ & _ & _ & _ & Htr & _).
  exact Htr.
Defined.

(** C6, as stated, fails for a service: the trace of [service_call] holds no
    Running=false between its Running=true and its Finished=true. *)
Lemma service_call_skips_running_false :
  ¬ lifecycle_ordered "MoveGuarded"
      (OwInterface.trace
         (OwInterface.service_call OwInterface.MoveGuarded
            (Some {| success := true; message := "done" |})
            "MoveGuarded" OwInterface.initial).1).
Proof.
  intros (i & j & k & _ & _ & _ & Hj & _).
  vm_compute in Hj.
  destruct j as [|[|[|j]]]; discriminate Hj.
Qed.

End Ordering.

(** ** Runs of lifecycle calls on the registry *)

Section RegistryRuns.

Import PlexilInterface.

Lemma run_call_lookup_is_Some build (c : Call) (w : World) (n : string) :
  is_Some (m_runningOperations (run_call build c w) !! n)
  ↔ is_Some (m_runningOperations w !! n).
Proof.
  destruct c as [m id|m id|m]; simpl.
  - destruct (m_runningOperations w !! m) as [cur|] eqn:Hl.
    + destruct (decide (cur = IDLE_ID)) as [->|Hcur].
      * rewrite (markOperationRunning_idle m id w Hl). simpl.
        rewrite lookup_insert_is_Some'. split; [|by right].
        intros [<-|H]; [by rewrite Hl|done].
      * by rewrite (markOperationRunning_busy m id cur w Hl Hcur).
    + by rewrite (markOperationRunning_unknown m id w Hl).
  - destruct (m_runningOperations w !! m) as [cur|] eqn:Hl.
    + rewrite (markOperationFinished_registry build m id cur w Hl).
      rewrite lookup_insert_is_Some'. split; [|by right].
      intros [<-|H]; [by rewrite Hl|done].
    + by rewrite (markOperationFinished_unknown build _ m id w Hl).
  - by rewrite running_world.
Qed.

Lemma run_calls_lookup_is_Some build (cs : list Call) (w : World) (n : string) :
  is_Some (m_runningOperations (run_calls build cs w) !! n)
  ↔ is_Some (m_runningOperations w !! n).
Proof.
  revert w. induction cs as [|c cs IH]; intros w; [done|].
  unfold run_calls. simpl. fold (run_calls build cs (run_call build c w)).
  rewrite IH. apply run_call_lookup_is_Some.
Qed.

(** X1.  No run of lifecycle calls registers or removes an operation:
    [isLanderOperation] answers after the run what it answered before, for
    every name. *)
Theorem run_calls_keep_registered (build : Build) (cs : list Call) (w : World)
    (n : string) :
  isLanderOperation n (run_calls build cs w)
  = (run_calls build cs w, (isLanderOperation n w).2).
Proof.
  unfold isLanderOperation, gets. simpl. do 2 f_equal.
  apply bool_decide_ext, run_calls_lookup_is_Some.
Qed.

(** X2.  [isLanderOperation] is the guard of the other calls: for a name it
    accepts, [running] and [markOperationRunning] end normally and
    [markOperationFinished] does not end in [std::out_of_range]: it goes
    through its writes and facts, in every build; for a name it refuses,
    each of the three ends in [std::out_of_range] and leaves the world as it
    was. *)
Theorem isLanderOperation_guards (build : Build) (name : string) (id : Z)
    (cb : Z → bool → World → World) (w : World) :
  ((isLanderOperation name w).2 = Normal true →
     (∃ b, running name w = (w, Normal b)) ∧
     (∃ b, (markOperationRunning name id w).2 = Normal b) ∧
     (markOperationFinished build (Some cb) name id w).2 ≠ Raise out_of_range ∧
     (markOperationFinished build (Some cb) name id w).1
       = (if callback_reached build id then cb id true (finished_world name w)
          else finished_world name w)) ∧
  ((isLanderOperation name w).2 = Normal false →
     running name w = (w, Raise out_of_range) ∧
     markOperationRunning name id w = (w, Raise out_of_range) ∧
     markOperationFinished build (Some cb) name id w = (w, Raise out_of_range)).
Proof.
  unfold isLanderOperation, gets. simpl. split; intros H.
  - assert (Hs : is_Some (m_runningOperations w !! name)).
    { apply (bool_decide_eq_true_1 _). congruence. }
    destruct Hs as [cur Hn]. split; [|split; [|split]].
    + eexists. apply (operationRunning_known name cur w Hn).
    + destruct (decide (cur = IDLE_ID)) as [->|Hcur].
      * exists true. by rewrite (markOperationRunning_idle name id w Hn).
      * exists false. by rewrite (markOperationRunning_busy name id cur w Hn Hcur).
    + rewrite (markOperationFinished_known build cb name id cur w Hn). simpl.
      by destruct (returns_to_caller build).
    + by rewrite (markOperationFinished_known build cb name id cur w Hn).
  - assert (Hn : m_runningOperations w !! name = None).
    { apply eq_None_not_Some. apply (bool_decide_eq_false_1 _). congruence. }
    split; [|split].
    + by apply operationRunning_unknown.
    + by apply markOperationRunning_unknown.
    + by apply markOperationFinished_unknown.
Qed.

Lemma isLanderOperation_guards_witness :
  (∃ b, running "Dig" (dig_world 42) = (dig_world 42, Normal b)) ∧
  (markOperationFinished optimized (Some record_status) "Dig" 42 (dig_world 42)).2
    ≠ Raise out_of_range ∧
  markOperationRunning "Drill" 7 (dig_world 42)
    = (dig_world 42, Raise out_of_range).
Proof.
  split; [|split].
  - exact (proj1 (proj1 (isLanderOperation_guards optimized "Dig" 42 record_status
                           (dig_world 42)) eq_refl)).
  - exact (proj1 (proj2 (proj2 (proj1 (isLanderOperation_guards optimized "Dig" 42
                                         record_status (dig_world 42)) eq_refl)))).
  - exact (proj1 (proj2 (proj2 (isLanderOperation_guards optimized "Drill" 7
                                  record_status (dig_world 42)) eq_refl))).
Defined.

(** X3.  Single flight: while an operation runs under an ID, through every
    run of calls that holds no end of it, a further [markOperationRunning]
    of that operation, under whatever ID, returns false, leaves the first ID
    stored and publishes no fact. *)
Theorem second_begin_refused (build : Build) (name : string) (id id' : Z)
    (cs : list Call) (w : World) :
  m_runningOperations w !! name = Some id → id ≠ IDLE_ID →
  forallb (λ c, negb (is_end_of name c)) cs = true →
  (markOperationRunning name id' (run_calls build cs w)).2 = Normal false ∧
  m_runningOperations (markOperationRunning name id' (run_calls build cs w)).1
    !! name = Some id ∧
  facts (trace (markOperationRunning name id' (run_calls build cs w)).1)
    = facts (trace (run_calls build cs w)).
Proof.
  intros Hn Hid Hcs.
  pose proof (run_calls_keep_running build name id cs w Hn Hid Hcs) as Hrun.
  rewrite (markOperationRunning_busy name id' id _ Hrun Hid). simpl.
  split; [done|]. split; [done|].
  unfold facts. rewrite filter_app. apply app_nil_r.
Qed.

Lemma second_begin_refused_witness :
  (markOperationRunning "Dig" 43
     (run_calls optimized [Query "Dig"; End_ "Drill" 5] (dig_world 42))).2
  = Normal false.
Proof.
  assert (Hid : 42 ≠ IDLE_ID) by (unfold IDLE_ID; lia).
  exact (proj1 (second_begin_refused optimized "Dig" 42 43
                  [Query "Dig"; End_ "Drill" 5] (dig_world 42) eq_refl Hid
                  eq_refl)).
Defined.

(** X4.  Begin and end are a round trip on the registry: an idle operation
    begun under any ID and then ended leaves [m_runningOperations] exactly as
    it was, and the operation can be begun again. *)
Theorem begin_end_round_trip (build : Build) (name : string) (id id' : Z)
    (w : World) :
  m_runningOperations w !! name = Some IDLE_ID →
  m_runningOperations
    (markOperationFinished build (Some record_status) name id
       (markOperationRunning name id w).1).1
  = m_runningOperations w ∧
  (markOperationRunning name id'
     (markOperationFinished build (Some record_status) name id
        (markOperationRunning name id w).1).1).2 = Normal true.
Proof.
  intros Hn.
  rewrite (markOperationRunning_idle name id w Hn). simpl.
  set (w1 := {| m_runningOperations := <[name:=id]> (m_runningOperations w);
                trace := _ |}).
  assert (Hn1 : m_runningOperations w1 !! name = Some id)
    by apply lookup_insert_eq.
  assert (Hreg : m_runningOperations
                   (markOperationFinished build (Some record_status) name id w1).1
                 = m_runningOperations w).
  { rewrite (markOperationFinished_registry build name id id w1 Hn1). simpl.
    rewrite insert_insert_eq. by apply insert_id. }
  split; [exact Hreg|].
  rewrite markOperationRunning_idle; [done|]. by rewrite Hreg.
Qed.

Lemma begin_end_round_trip_witness :
  m_runningOperations
    (markOperationFinished optimized (Some record_status) "Dig" 42
       (markOperationRunning "Dig" 42 (dig_world IDLE_ID)).1).1
  = m_runningOperations (dig_world IDLE_ID).
Proof.
  exact (proj1 (begin_end_round_trip optimized "Dig" 42 43 (dig_world IDLE_ID)
                  eq_refl)).
Defined.

(** X5.  Each call on the registry writes at most the entry of the name it
    is given: whatever its outcome, the entry of every other name is what it
    was. *)
Theorem registry_calls_frame (build : Build) (name other : string) (id : Z)
    (w : World) :
  other ≠ name →
  m_runningOperations (markOperationRunning name id w).1 !! other
    = m_runningOperations w !! other ∧
  m_runningOperations
    (markOperationFinished build (Some record_status) name id w).1
    !! other = m_runningOperations w !! other ∧
  m_runningOperations (registerLanderOperation name w).1 !! other
    = m_runningOperations w !! other ∧
  m_runningOperations (running name w).1 !! other
    = m_runningOperations w !! other.
Proof.
  intros Hne. split; [|split; [|split]].
  - destruct (m_runningOperations w !! name) as [cur|] eqn:Hl.
    + destruct (decide (cur = IDLE_ID)) as [->|Hcur].
      * rewrite (markOperationRunning_idle name id w Hl). simpl.
        by rewrite lookup_insert_ne.
      * by rewrite (markOperationRunning_busy name id cur w Hl Hcur).
    + by rewrite (markOperationRunning_unknown name id w Hl).
  - destruct (m_runningOperations w !! name) as [cur|] eqn:Hl.
    + rewrite (markOperationFinished_registry build name id cur w Hl).
      by rewrite lookup_insert_ne.
    + by rewrite (markOperationFinished_unknown build _ name id w Hl).
  - simpl. by rewrite lookup_insert_ne.
  - by rewrite running_world.
Qed.

Lemma registry_calls_frame_witness :
  m_runningOperations (registerLanderOperation "Drill" (dig_world 42)).1 !! "Dig"
    = m_runningOperations (dig_world 42) !! "Dig".
Proof.
  refine (proj1 (proj2 (proj2 (registry_calls_frame optimized "Drill" "Dig" 7
                                 (dig_world 42) _)))).
  discriminate.
Defined.

Lemma ends_notified_ext build (r1 r2 : gmap string Z) (cs : list Call) :
  (∀ n, is_Some (r1 !! n) ↔ is_Some (r2 !! n)) →
  ends_notified build r1 cs = ends_notified build r2 cs.
Proof.
  intros Hr. induction cs as [|c cs IH]; [done|].
  destruct c as [n id|n id|n]; simpl; [done| |done].
  rewrite (bool_decide_ext _ _ (Hr n)). by rewrite IH.
Qed.

(** X6.  The callback's calls over a run of lifecycle calls are exactly the
    ends of registered operations that reach the callback, in the order of
    the run and each with true: an end under an ID other than [IDLE_ID]
    adds one call in every build, an end under [IDLE_ID] adds one only in a
    build that has dropped the test of the ID, and begins, queries and ends
    of unknown names add none. *)
Theorem run_calls_notifications (build : Build) (cs : list Call) (w : World) :
  status_calls (trace (run_calls build cs w))
  = status_calls (trace w) ++ ends_notified build (m_runningOperations w) cs ∧
  (∀ n id rest,
     ends_notified build (m_runningOperations w) (End_ n id :: rest)
     = (if bool_decide (is_Some (m_runningOperations w !! n)) &&
           (negb (id =? IDLE_ID) || negb (keeps_id_test build))
        then [(id, true)] else [])
       ++ ends_notified build (m_runningOperations w) rest).
Proof.
  split.
  - revert w. induction cs as [|c cs IH]; intros w.
    { simpl. by rewrite app_nil_r. }
    unfold run_calls. simpl. fold (run_calls build cs (run_call build c w)).
    rewrite IH.
    rewrite (ends_notified_ext build _ (m_runningOperations w) cs
               (run_call_lookup_is_Some build c w)).
    destruct c as [n id|n id|n]; simpl.
    + f_equal.
      destruct (m_runningOperations w !! n) as [cur|] eqn:Hl.
      * destruct (decide (cur = IDLE_ID)) as [->|Hcur].
        -- rewrite (markOperationRunning_idle n id w Hl). simpl.
           rewrite status_calls_app. simpl. apply app_nil_r.
        -- rewrite (markOperationRunning_busy n id cur w Hl Hcur). simpl.
           rewrite status_calls_app. simpl. apply app_nil_r.
      * by rewrite (markOperationRunning_unknown n id w Hl).
    + destruct (m_runningOperations w !! n) as [cur|] eqn:Hl.
      * rewrite (markOperationFinished_trace build n id cur w Hl).
        rewrite !status_calls_app. simpl.
        destruct (callback_reached build id); simpl; [|by rewrite app_nil_r].
        by rewrite <- app_assoc.
      * by rewrite (markOperationFinished_unknown build _ n id w Hl).
    + by rewrite running_world.
  - intros n id rest. simpl. unfold callback_reached.
    by destruct (bool_decide _ && _).
Qed.

End RegistryRuns.

(** ** Services: [service_call], the queries and the entry points *)

Section Services.

Import OwInterface.

(** X7.  A run of [service_call] that nothing interferes with ends normally
    with the service's flag cleared, whatever the flag was, and with every
    other flag, both overtorque sets and the telemetry as they were.  It logs
    the running-state error exactly when the flag was already set on entry,
    the reply or the failure of the call between the two facts, and never
    the stopped-state error. *)
Theorem service_call_effects (srv : Service) (reply : option Outcome)
    (name : string) (w : World) :
  (service_call srv reply name w).2 = Normal tt ∧
  (∀ s, m_running (service_call srv reply name w).1 s
        = if decide (s = srv) then false else m_running w s) ∧
  JointsAtHardTorqueLimit (service_call srv reply name w).1
    = JointsAtHardTorqueLimit w ∧
  JointsAtSoftTorqueLimit (service_call srv reply name w).1
    = JointsAtSoftTorqueLimit w ∧
  JointTelemetryMap (service_call srv reply name w).1 = JointTelemetryMap w ∧
  trace (service_call srv reply name w).1
    = trace w ++
      (if m_running w srv
       then [ROS_ERROR ("service_call: " +:+ name +:+
                        " in running state. This shouldn't happen.")]
       else []) ++
      [Publish "Running" (VBool true) (Some name);
       match reply with
       | Some o => ROS_INFO (name +:+ " returned: " +:+ show_flag (success o) +:+
                             ", " +:+ message o)
       | None => ROS_ERROR ("Failed to call service " +:+ name)
       end;
       Publish "Finished" (VBool true) (Some name)].
Proof.
  unfold service_call, is_running, start, stop, publish, emit, set_m_running,
    modify, gets, mbind, M_bind, mret, M_ret.
  simpl.
  destruct (m_running w srv) eqn:Hr; destruct reply as [o|]; simpl;
    rewrite ?Hr; repeat case_decide; try done; simpl;
    (split; [done|]); (split; [intros s; by repeat case_decide|]);
    repeat (split; [done|]); by rewrite <- ?app_assoc.
Qed.

Lemma serviceRunning_known (name : string) (srv : Service) (w : World) :
  ServiceRunning !! name = Some srv →
  running name w = (w, Normal (m_running w srv)) ∧
  finished name w = (w, Normal (negb (m_running w srv))).
Proof.
  intros Hs.
  unfold running, finished, serviceFinished, serviceRunning, is_service,
    is_running, gets, mbind, M_bind, mret, M_ret.
  rewrite Hs. by rewrite bool_decide_eq_true_2 by eauto.
Qed.

(** X8.  [running] and [finished] answer for every name, without a fault: for
    a service name they read the service's flag and are each other's
    negation; for any other name both log an error and both answer false, so
    that an unsupported operation is neither running nor finished. *)
Theorem running_finished_answers (name : string) (w : World) :
  match ServiceRunning !! name with
  | Some srv =>
      running name w = (w, Normal (m_running w srv)) ∧
      finished name w = (w, Normal (negb (m_running w srv)))
  | None =>
      (running name w).2 = Normal false ∧
      (finished name w).2 = Normal false ∧
      trace (running name w).1
        = trace w ++
          [ROS_ERROR ("OwInterface::running: unsupported operation: " +:+ name)] ∧
      trace (finished name w).1
        = trace w ++
          [ROS_ERROR ("OwInterface::finished: unsupported operation: " +:+ name)]
  end.
Proof.
  destruct (ServiceRunning !! name) as [srv|] eqn:Hs.
  - by apply serviceRunning_known.
  - unfold running, finished, is_service. rewrite Hs.
    rewrite bool_decide_eq_false_2 by (by intros [? ?]).
    done.
Qed.

(** X9.  The three entry points start their thread under one and the same
    test: the flag of the StartPlanning service is clear and the client
    exists and is valid.  [moveGuarded] and [publishTrajectoryDemo] do not
    read the flag of their own service, so each starts a further thread
    while its service runs.  None of them writes a flag or publishes a
    fact. *)
Theorem entry_points_gate (client : ServiceClient) (w : World) :
  let gate (srv : Service) (name : string) :=
    if m_running w StartPlanning then None
    else if client_exists client && client_isValid client
         then Some (srv, name) else None in
  (startPlanningDemo client w).2 = Normal (gate StartPlanning "StartPlanning") ∧
  (moveGuarded client w).2 = Normal (gate MoveGuarded "MoveGuarded") ∧
  (moveGuardedDemo client w).2 = Normal (gate MoveGuarded "MoveGuarded") ∧
  (publishTrajectoryDemo client w).2
    = Normal (gate PublishTrajectory "PublishTrajectory") ∧
  (∀ s, m_running (startPlanningDemo client w).1 s = m_running w s ∧
        m_running (moveGuarded client w).1 s = m_running w s ∧
        m_running (publishTrajectoryDemo client w).1 s = m_running w s) ∧
  facts (trace (startPlanningDemo client w).1) = facts (trace w) ∧
  facts (trace (moveGuarded client w).1) = facts (trace w) ∧
  facts (trace (publishTrajectoryDemo client w).1) = facts (trace w).
Proof.
  unfold moveGuardedDemo, startPlanningDemo, moveGuarded, publishTrajectoryDemo,
    service_available, service_client_ok, is_running, emit, modify, gets,
    mbind, M_bind, mret, M_ret, facts.
  simpl.
  destruct (m_running w StartPlanning), (client_exists client),
    (client_isValid client); simpl;
    rewrite ?filter_app, ?app_nil_r; simpl; rewrite ?app_nil_r; done.
Qed.

(** X10.  While the MoveGuarded service runs and StartPlanning does not, a
    further [moveGuarded] with a good client is not refused: it starts a
    thread without a warning, and that thread's [service_call] opens with
    the running-state error and ends with the flag cleared. *)
Theorem moveGuarded_while_running (client : ServiceClient)
    (reply : option Outcome) (w : World) :
  m_running w MoveGuarded = true →
  m_running w StartPlanning = false →
  client_exists client = true → client_isValid client = true →
  moveGuarded client w = (w, Normal (Some (MoveGuarded, MoveGuardedService))) ∧
  (∃ rest, trace (service_call MoveGuarded reply MoveGuardedService w).1
           = trace w ++
             ROS_ERROR ("service_call: " +:+ MoveGuardedService +:+
                        " in running state. This shouldn't happen.") :: rest) ∧
  m_running (service_call MoveGuarded reply MoveGuardedService w).1 MoveGuarded
    = false.
Proof.
  intros Hmg Hsp He Hv. split; [|split].
  - unfold moveGuarded, service_available, service_client_ok, is_running, gets,
      mbind, M_bind, mret, M_ret.
    by rewrite Hsp, He, Hv.
  - unfold service_call, is_running, start, stop, publish, emit, set_m_running,
      modify, gets, mbind, M_bind, mret, M_ret.
    simpl. rewrite Hmg. simpl.
    destruct reply as [o|]; simpl; rewrite ?Hmg; simpl;
      rewrite <- !app_assoc; by eexists.
  - unfold service_call, is_running, start, stop, publish, emit, set_m_running,
      modify, gets, mbind, M_bind, mret, M_ret.
    simpl. rewrite Hmg. simpl.
    destruct reply as [o|]; simpl; rewrite ?Hmg; simpl; by repeat case_decide.
Qed.

Lemma moveGuarded_while_running_witness :
  let w := set_m_running (λ s, bool_decide (s = MoveGuarded)) initial in
  moveGuarded {| client_exists := true; client_isValid := true |} w
  = (w, Normal (Some (MoveGuarded, MoveGuardedService))).
Proof.
  intros w.
  exact (proj1 (moveGuarded_while_running
                  {| client_exists := true; client_isValid := true |} None w
                  eq_refl eq_refl eq_refl eq_refl)).
Defined.

End Services.

(** ** More on the joint telemetry *)

Section TelemetryRuns.

Import OwInterface.

(** X11.  The two joint tables agree: the ROS name a joint's properties carry
    is the one name [JointMap] sends to that joint, and no joint has a soft
    limit above its hard limit. *)
Theorem joint_tables_agree (ros_name : string) (joint : Joint) :
  (JointMap !! ros_name = Some joint ↔ ros_name = rosName (JointPropMap joint)) ∧
  (softTorqueLimit (JointPropMap joint) <=? hardTorqueLimit (JointPropMap joint))%float
    = true.
Proof.
  split; [split|].
  - intros H. unfold JointMap in H.
    apply elem_of_list_to_map_2 in H.
    repeat (apply elem_of_cons in H as [H|H];
            [injection H as -> ->; reflexivity|]).
    by apply elem_of_nil in H.
  - intros ->. by destruct joint.
  - by destruct joint.
Qed.

Lemma joint_tables_agree_witness :
  JointMap !! "j_dist_pitch" = Some distal_pitch.
Proof.
  exact (proj2 (proj1 (joint_tables_agree "j_dist_pitch" distal_pitch)) eq_refl).
Defined.

(** X12.  Last write wins: a sample of a known joint leaves that joint's
    telemetry entry at the sample's position, velocity and effort, every
    other joint's entry as it was, and publishes the joint's Velocity, Effort
    and Position facts, in this order, and nothing else. *)
Theorem process_sample_telemetry (msg : sensor_msgs.JointState) (i : nat)
    (ros_name : string) (joint : Joint) (p v e : float) (w : World) :
  sensor_msgs.name msg !! i = Some ros_name →
  JointMap !! ros_name = Some joint →
  sensor_msgs.position msg !! i = Some p →
  sensor_msgs.velocity msg !! i = Some v →
  sensor_msgs.effort msg !! i = Some e →
  JointTelemetryMap (process_sample msg i w).1
    = <[joint := {| position := p; velocity := v; effort := e |}]>
        (JointTelemetryMap w) ∧
  JointTelemetryMap (process_sample msg i w).1 !! joint
    = Some {| position := p; velocity := v; effort := e |} ∧
  (∀ joint', joint' ≠ joint →
     JointTelemetryMap (process_sample msg i w).1 !! joint'
       = JointTelemetryMap w !! joint') ∧
  trace (process_sample msg i w).1
    = trace w ++
      [Publish (plexilName (JointPropMap joint) +:+ "Velocity") (VReal v) None;
       Publish (plexilName (JointPropMap joint) +:+ "Effort") (VReal e) None;
       Publish (plexilName (JointPropMap joint) +:+ "Position") (VReal p) None].
Proof.
  intros Hname Hjoint Hp Hv He.
  rewrite (process_sample_known msg i ros_name joint p v e w Hname Hjoint Hp Hv He).
  match goal with
  | |- context [handle_overtorque joint e ?w0] =>
      destruct (handle_overtorque_rest joint e w0) as (Htr & Htel & _)
  end.
  rewrite Htr, Htel. simpl.
  split; [done|]. split; [apply lookup_insert_eq|]. split; [|done].
  intros joint' Hne. by rewrite lookup_insert_ne.
Qed.

Lemma process_sample_telemetry_witness :
  let msg := {| sensor_msgs.name := ["j_ant_pan"];
                sensor_msgs.position := [0.5]%float;
                sensor_msgs.velocity := [2]%float;
                sensor_msgs.effort := [5]%float |} in
  JointTelemetryMap (process_sample msg 0 initial).1 !! antenna_pan
    = Some {| position := 0.5; velocity := 2; effort := 5 |}.
Proof.
  intros msg.
  exact (proj1 (proj2 (process_sample_telemetry msg 0 "j_ant_pan" antenna_pan
                         0.5 2 5 initial eq_refl eq_refl eq_refl eq_refl eq_refl))).
Defined.

Lemma JointMap_size : size JointMap = 8%nat.
Proof. reflexivity. Qed.

(** A turn of the callback's loop ends normally or in a read past the end of
    one of the message's vectors. *)
Lemma process_sample_outcome (msg : sensor_msgs.JointState) (i : nat) (w : World) :
  (process_sample msg i w).2 = Normal tt ∨
  (process_sample msg i w).2 = Raise vector_index_past_end.
Proof.
  destruct (sensor_msgs.name msg !! i) as [ros_name|] eqn:Hn.
  - destruct (JointMap !! ros_name) as [joint|] eqn:Hj.
    + destruct (sensor_msgs.position msg !! i) as [p|] eqn:Hp;
      [destruct (sensor_msgs.velocity msg !! i) as [v|] eqn:Hv;
       [destruct (sensor_msgs.effort msg !! i) as [e|] eqn:He|]|].
      * left.
        rewrite (process_sample_known msg i ros_name joint p v e w Hn Hj Hp Hv He).
        apply handle_overtorque_normal.
      * right. unfold process_sample, vec_at, throw, mbind, M_bind, mret, M_ret.
        by rewrite Hn, Hj, Hp, Hv, He.
      * right. unfold process_sample, vec_at, throw, mbind, M_bind, mret, M_ret.
        by rewrite Hn, Hj, Hp, Hv.
      * right. unfold process_sample, vec_at, throw, mbind, M_bind, mret, M_ret.
        by rewrite Hn, Hj, Hp.
    + left. by rewrite (process_sample_unknown msg i ros_name w Hn Hj).
  - right. unfold process_sample, vec_at, throw, mbind, M_bind.
    by rewrite Hn.
Qed.

Lemma process_sample_normal (msg : sensor_msgs.JointState) (i : nat) (w : World) :
  is_Some (sensor_msgs.name msg !! i) →
  is_Some (sensor_msgs.position msg !! i) →
  is_Some (sensor_msgs.velocity msg !! i) →
  is_Some (sensor_msgs.effort msg !! i) →
  (process_sample msg i w).2 = Normal tt.
Proof.
  intros [ros_name Hn] [p Hp] [v Hv] [e He].
  destruct (JointMap !! ros_name) as [joint|] eqn:Hj.
  - rewrite (process_sample_known msg i ros_name joint p v e w Hn Hj Hp Hv He).
    apply handle_overtorque_normal.
  - by rewrite (process_sample_unknown msg i ros_name w Hn Hj).
Qed.

Lemma for_each_normal {W} (body : nat → M W unit) (indices : list nat) :
  (∀ i w, i ∈ indices → (body i w).2 = Normal tt) →
  ∀ w, (for_each indices body w).2 = Normal tt.
Proof.
  induction indices as [|i rest IH]; intros Hbody w; [done|].
  simpl. unfold mbind, M_bind.
  pose proof (Hbody i w (list_elem_of_here _ _)) as Hi.
  destruct (body i w) as [w' [[]|e]]; simpl in Hi; [|done].
  apply IH. intros j w'' Hj. apply Hbody. by apply list_elem_of_further.
Qed.

Lemma for_each_faults {W} (body : nat → M W unit) (indices : list nat) (e : exn) :
  (∀ i w, (body i w).2 = Normal tt ∨ (body i w).2 = Raise e) →
  (∃ i, i ∈ indices ∧ ∀ w, (body i w).2 = Raise e) →
  ∀ w, (for_each indices body w).2 = Raise e.
Proof.
  intros Hbody. induction indices as [|i rest IH]; intros (j & Hj & Hfault) w.
  { by apply elem_of_nil in Hj. }
  simpl. unfold mbind, M_bind.
  destruct (body i w) as [w' [[]|e']] eqn:Hb.
  - apply IH. apply elem_of_cons in Hj as [->|Hj].
    + specialize (Hfault w). by rewrite Hb in Hfault.
    + by exists j.
  - simpl. destruct (Hbody i w) as [Hi|Hi]; rewrite Hb in Hi; simpl in Hi;
      congruence.
Qed.

Lemma for_each_ext {W} (body1 body2 : nat → M W unit) (indices : list nat) :
  (∀ i w, i ∈ indices → body1 i w = body2 i w) →
  ∀ w, for_each indices body1 w = for_each indices body2 w.
Proof.
  induction indices as [|i rest IH]; intros Hbody w; [done|].
  simpl. unfold mbind, M_bind.
  rewrite (Hbody i w (list_elem_of_here _ _)).
  destruct (body2 i w) as [w' [[]|e]]; [|done].
  apply IH. intros j w'' Hj. apply Hbody. by apply list_elem_of_further.
Qed.

(** A turn of the loop only adds to the trace, however it ends. *)
Lemma process_sample_extends (msg : sensor_msgs.JointState) (i : nat) (w : World) :
  ∃ l, trace (process_sample msg i w).1 = trace w ++ l.
Proof.
  destruct (sensor_msgs.name msg !! i) as [ros_name|] eqn:Hn.
  - destruct (JointMap !! ros_name) as [joint|] eqn:Hj.
    + destruct (sensor_msgs.position msg !! i) as [p|] eqn:Hp;
      [destruct (sensor_msgs.velocity msg !! i) as [v|] eqn:Hv;
       [destruct (sensor_msgs.effort msg !! i) as [e|] eqn:He|]|].
      * rewrite (process_sample_known msg i ros_name joint p v e w Hn Hj Hp Hv He).
        match goal with
        | |- context [handle_overtorque joint e ?w0] =>
            destruct (handle_overtorque_rest joint e w0) as (Htr & _)
        end.
        rewrite Htr. simpl. by eexists.
      * exists []. unfold process_sample, vec_at, throw, mbind, M_bind, mret, M_ret.
        rewrite Hn, Hj, Hp, Hv, He. simpl. by rewrite app_nil_r.
      * exists []. unfold process_sample, vec_at, throw, mbind, M_bind, mret, M_ret.
        rewrite Hn, Hj, Hp, Hv. simpl. by rewrite app_nil_r.
      * exists []. unfold process_sample, vec_at, throw, mbind, M_bind, mret, M_ret.
        rewrite Hn, Hj, Hp. simpl. by rewrite app_nil_r.
    + rewrite (process_sample_unknown msg i ros_name w Hn Hj). simpl. by eexists.
  - exists []. unfold process_sample, vec_at, throw, mbind, M_bind.
    rewrite Hn. simpl. by rewrite app_nil_r.
Qed.

Lemma for_each_extends {W} (tr : W → list Event) (body : nat → M W unit)
    (indices : list nat) :
  (∀ j w, ∃ l, tr (body j w).1 = tr w ++ l) →
  ∀ w, ∃ l, tr (for_each indices body w).1 = tr w ++ l.
Proof.
  intros Hbody. induction indices as [|j rest IH]; intros w.
  { exists []. simpl. by rewrite app_nil_r. }
  simpl. unfold mbind, M_bind.
  destruct (Hbody j w) as [l1 Hl1].
  destruct (body j w) as [w' [[]|e]]; simpl in *.
  - destruct (IH w') as [l2 Hl2]. exists (l1 ++ l2).
    by rewrite Hl2, Hl1, app_assoc.
  - by exists l1.
Qed.

(** In a loop all of whose turns end normally and only add to the trace, an
    event that the turn at [i] always leaves in the trace is in the trace
    the loop leaves. *)
Lemma for_each_event {W} (tr : W → list Event) (body : nat → M W unit)
    (indices : list nat) (i : nat) (e : Event) :
  (∀ j w, ∃ l, tr (body j w).1 = tr w ++ l) →
  (∀ j w, j ∈ indices → (body j w).2 = Normal tt) →
  i ∈ indices →
  (∀ w, e ∈ tr (body i w).1) →
  ∀ w, e ∈ tr (for_each indices body w).1.
Proof.
  intros Hext Hnormal Hi He.
  induction indices as [|j rest IH]; intros w.
  { by apply elem_of_nil in Hi. }
  simpl. unfold mbind, M_bind.
  pose proof (Hnormal j w (list_elem_of_here _ _)) as Hj.
  pose proof (He w) as Hew.
  destruct (body j w) as [w' [[]|x]] eqn:Hb; simpl in Hj; [|done].
  apply elem_of_cons in Hi as [->|Hi].
  - rewrite Hb in Hew. simpl in Hew.
    destruct (for_each_extends tr body rest Hext w') as [l Hl].
    rewrite Hl. apply elem_of_app. by left.
  - apply IH; [|done].
    intros k w'' Hk. apply Hnormal. by apply list_elem_of_further.
Qed.

(** X13.  The callback ends normally on every message that holds at least
    eight entries ([JointMap.size()]) in each of its four vectors, whatever
    the names are: each name among the first eight that [JointMap] does not
    hold is logged as an unsupported joint, and each entry among the first
    eight whose name it holds has its Effort fact published, also when it
    comes after an unsupported name. *)
Theorem jointStatesCallback_complete (msg : sensor_msgs.JointState) (w : World) :
  (8 ≤ length (sensor_msgs.name msg))%nat →
  (8 ≤ length (sensor_msgs.position msg))%nat →
  (8 ≤ length (sensor_msgs.velocity msg))%nat →
  (8 ≤ length (sensor_msgs.effort msg))%nat →
  (jointStatesCallback msg w).2 = Normal tt ∧
  (∀ i ros_name,
     (i < 8)%nat → sensor_msgs.name msg !! i = Some ros_name →
     JointMap !! ros_name = None →
     ROS_ERROR ("jointStatesCallback: unsupported joint " +:+ ros_name)
       ∈ trace (jointStatesCallback msg w).1) ∧
  (∀ i ros_name joint e,
     (i < 8)%nat → sensor_msgs.name msg !! i = Some ros_name →
     JointMap !! ros_name = Some joint →
     sensor_msgs.effort msg !! i = Some e →
     Publish (plexilName (JointPropMap joint) +:+ "Effort") (VReal e) None
       ∈ trace (jointStatesCallback msg w).1).
Proof.
  intros Hn Hp Hv He. unfold jointStatesCallback. rewrite JointMap_size.
  assert (Hnormal : ∀ j w', j ∈ seq 0 8 → (process_sample msg j w').2 = Normal tt).
  { intros j w' Hj. apply elem_of_seq in Hj.
    apply process_sample_normal; apply lookup_lt_is_Some; lia. }
  split; [by apply for_each_normal|]. split.
  - intros i ros_name Hi Hname Hjoint.
    apply (for_each_event trace (process_sample msg) (seq 0 8) i);
      [apply process_sample_extends|exact Hnormal|apply elem_of_seq; lia|].
    intros w'. rewrite (process_sample_unknown msg i ros_name w' Hname Hjoint).
    simpl. apply elem_of_app. right. apply list_elem_of_here.
  - intros i ros_name joint e Hi Hname Hjoint Heff.
    apply (for_each_event trace (process_sample msg) (seq 0 8) i);
      [apply process_sample_extends|exact Hnormal|apply elem_of_seq; lia|].
    intros w'.
    destruct (lookup_lt_is_Some_2 (sensor_msgs.position msg) i) as [p Hpos]; [lia|].
    destruct (lookup_lt_is_Some_2 (sensor_msgs.velocity msg) i) as [v Hvel]; [lia|].
    rewrite (process_sample_known msg i ros_name joint p v e w'
               Hname Hjoint Hpos Hvel Heff).
    match goal with
    | |- context [handle_overtorque joint e ?w0] =>
        destruct (handle_overtorque_rest joint e w0) as (Htr & _)
    end.
    rewrite Htr. simpl. apply elem_of_app. right.
    apply list_elem_of_further, list_elem_of_here.
Qed.

Lemma jointStatesCallback_complete_witness :
  let msg :=
    {| sensor_msgs.name := ["j_shou_yaw"; "j_shou_pitch"; "j_grinder";
                            "j_dist_pitch"; "j_hand_yaw"; "j_scoop_yaw";
                            "j_ant_pan"; "j_ant_tilt"];
       sensor_msgs.position := [0; 0; 0; 0; 0; 0; 0; 0]%float;
       sensor_msgs.velocity := [0; 0; 0; 0; 0; 0; 0; 0]%float;
       sensor_msgs.effort := [1; 2; 3; 4; 5; 6; 7; 8]%float |} in
  (jointStatesCallback msg initial).2 = Normal tt ∧
  ROS_ERROR "jointStatesCallback: unsupported joint j_grinder"
    ∈ trace (jointStatesCallback msg initial).1 ∧
  Publish "AntennaTiltEffort" (VReal 8) None
    ∈ trace (jointStatesCallback msg initial).1.
Proof.
  intros msg.
  destruct (jointStatesCallback_complete msg initial) as (Hret & Herr & Hpub);
    [simpl; lia|simpl; lia|simpl; lia|simpl; lia|].
  split; [exact Hret|]. split.
  - apply (Herr 2%nat "j_grinder"); [lia|reflexivity|reflexivity].
  - apply (Hpub 7%nat "j_ant_tilt" antenna_tilt 8%float);
      [lia|reflexivity|reflexivity|reflexivity].
Defined.

(** X14.  The callback's loop runs to [JointMap.size()], not to the size of
    the message: on a message that names fewer than eight joints it reads
    past the end of a vector of the message. *)
Theorem jointStatesCallback_short_message (msg : sensor_msgs.JointState)
    (w : World) :
  (length (sensor_msgs.name msg) < 8)%nat →
  (jointStatesCallback msg w).2 = Raise vector_index_past_end.
Proof.
  intros Hn. unfold jointStatesCallback. rewrite JointMap_size.
  apply for_each_faults.
  - intros i w'. apply process_sample_outcome.
  - exists (length (sensor_msgs.name msg)). split.
    + apply elem_of_seq. lia.
    + intros w'. unfold process_sample, vec_at, throw, mbind, M_bind.
      by rewrite (lookup_ge_None_2 (sensor_msgs.name msg) _ (le_n _)).
Qed.

Lemma jointStatesCallback_short_message_witness :
  (jointStatesCallback
     {| sensor_msgs.name := ["j_ant_pan"; "j_ant_tilt"];
        sensor_msgs.position := [0; 0]%float;
        sensor_msgs.velocity := [0; 0]%float;
        sensor_msgs.effort := [1; 2]%float |} initial).2
  = Raise vector_index_past_end.
Proof.
  apply jointStatesCallback_short_message. simpl. lia.
Defined.

(** X15.  The callback reads the first eight entries of a message and no
    other: two messages that agree on those entries in the four vectors
    give the same result, whatever follows them. *)
Theorem jointStatesCallback_first_entries (msg1 msg2 : sensor_msgs.JointState)
    (w : World) :
  (∀ i, (i < 8)%nat →
     sensor_msgs.name msg1 !! i = sensor_msgs.name msg2 !! i ∧
     sensor_msgs.position msg1 !! i = sensor_msgs.position msg2 !! i ∧
     sensor_msgs.velocity msg1 !! i = sensor_msgs.velocity msg2 !! i ∧
     sensor_msgs.effort msg1 !! i = sensor_msgs.effort msg2 !! i) →
  jointStatesCallback msg1 w = jointStatesCallback msg2 w.
Proof.
  intros Hagree. unfold jointStatesCallback. rewrite JointMap_size.
  apply for_each_ext. intros i w' Hi. apply elem_of_seq in Hi.
  destruct (Hagree i) as (Hn & Hp & Hv & He); [lia|].
  unfold process_sample, handle_joint_fault, vec_at, mbind, M_bind.
  by rewrite Hn, Hp, Hv, He.
Qed.

Lemma jointStatesCallback_first_entries_witness :
  let zeros := [0; 0; 0; 0; 0; 0; 0; 0]%float in
  let names := ["j_shou_yaw"; "j_shou_pitch"; "j_prox_pitch"; "j_dist_pitch";
                "j_hand_yaw"; "j_scoop_yaw"; "j_ant_pan"; "j_ant_tilt"] in
  jointStatesCallback
    {| sensor_msgs.name := names ++ ["j_grinder"];
       sensor_msgs.position := zeros ++ [1%float];
       sensor_msgs.velocity := zeros ++ [1%float];
       sensor_msgs.effort := zeros ++ [90%float] |} initial
  = jointStatesCallback
    {| sensor_msgs.name := names;
       sensor_msgs.position := zeros;
       sensor_msgs.velocity := zeros;
       sensor_msgs.effort := zeros |} initial.
Proof.
  intros zeros names.
  apply jointStatesCallback_first_entries.
  intros i Hi.
  do 8 (destruct i as [|i]; [by repeat split|]). lia.
Defined.

Lemma receive_invariant (P : World → Prop) :
  (∀ msg w, P w → P (jointStatesCallback msg w).1) →
  ∀ msgs w, P w → P (receive msgs w).
Proof.
  intros Hstep msgs. induction msgs as [|msg msgs IH]; intros w Hw; [done|].
  unfold receive. simpl. apply IH. by apply Hstep.
Qed.

(** A joint whose two limits are equal has no Soft samples. *)
Lemma equal_limits_never_soft (joint : Joint) (e : float) :
  softTorqueLimit (JointPropMap joint) = hardTorqueLimit (JointPropMap joint) →
  tier_of_joint joint e ≠ Soft.
Proof.
  intros Heq. unfold tier_of_joint, tier. rewrite Heq.
  by destruct (_ <=? _)%float.
Qed.

Lemma process_sample_keeps_not_soft (joint : Joint)
    (msg : sensor_msgs.JointState) (i : nat) (w : World) :
  softTorqueLimit (JointPropMap joint) = hardTorqueLimit (JointPropMap joint) →
  softTorqueLimitReached (plexilName (JointPropMap joint)) w = false →
  softTorqueLimitReached (plexilName (JointPropMap joint))
    (process_sample msg i w).1 = false.
Proof.
  intros Heq Hw.
  unfold process_sample, handle_joint_fault, vec_at, publish_real, emit,
    set_telemetry, modify, throw, mbind, M_bind, mret, M_ret.
  destruct (sensor_msgs.name msg !! i) as [ros_name|]; [|done].
  destruct (JointMap !! ros_name) as [joint0|]; [|done].
  destruct (sensor_msgs.position msg !! i) as [p|]; [|done].
  destruct (sensor_msgs.velocity msg !! i) as [v|]; [|done].
  destruct (sensor_msgs.effort msg !! i) as [e|]; [|done].
  simpl.
  match goal with
  | |- context [handle_overtorque joint0 e ?w0] =>
      pose proof (handle_overtorque_sets joint0 e w0) as Hs
  end.
  simpl in Hs. unfold softTorqueLimitReached in *.
  apply bool_decide_eq_false in Hw. apply bool_decide_eq_false.
  destruct (tier_of_joint joint0 e) eqn:Ht; injection Hs as _ Hso;
    rewrite Hso; clear Hso.
  - set_solver.
  - assert (Hne : plexilName (JointPropMap joint) ≠ plexilName (JointPropMap joint0)).
    { intros Hp. apply plexilName_inj in Hp. subst joint0.
      by apply (equal_limits_never_soft joint e Heq). }
    set_solver.
  - done.
Qed.

(** X16.  A joint whose soft and hard limits are equal, as they are for the
    two antenna joints, is never at the soft limit: after every run of
    callbacks from the initial state [softTorqueLimitReached] answers false
    for it, its samples being Hard or Nominal. *)
Theorem equal_limits_skip_soft (joint : Joint) (e : float)
    (msgs : list sensor_msgs.JointState) :
  softTorqueLimit (JointPropMap joint) = hardTorqueLimit (JointPropMap joint) →
  tier_of_joint joint e ≠ Soft ∧
  softTorqueLimitReached (plexilName (JointPropMap joint)) (receive msgs initial)
    = false.
Proof.
  intros Heq. split; [by apply equal_limits_never_soft|].
  apply (receive_invariant
           (λ w, softTorqueLimitReached (plexilName (JointPropMap joint)) w = false));
    [|done].
  intros msg w Hw. unfold jointStatesCallback.
  apply (for_each_invariant
           (λ w, softTorqueLimitReached (plexilName (JointPropMap joint)) w = false));
    [|done].
  intros i w' Hw'. by apply process_sample_keeps_not_soft.
Qed.

Lemma equal_limits_skip_soft_witness :
  tier_of_joint antenna_pan 30 ≠ Soft ∧
  softTorqueLimitReached "AntennaPan"
    (receive [{| sensor_msgs.name := ["j_ant_pan"];
                 sensor_msgs.position := [0]%float;
                 sensor_msgs.velocity := [0]%float;
                 sensor_msgs.effort := [30]%float |}] initial) = false.
Proof.
  exact (equal_limits_skip_soft antenna_pan 30 _ eq_refl).
Defined.

(** X17.  The hard flag latches: once a joint is in the hard set it stays
    there through every run of samples in which that joint has no Nominal
    sample, so a joint back in the soft range is still reported at the hard
    limit. *)
Theorem hard_limit_latches (joint : Joint) (samples : list (Joint * float))
    (w : World) :
  hardTorqueLimitReached (plexilName (JointPropMap joint)) w = true →
  Forall (λ s, s.1 = joint → tier_of_joint joint s.2 ≠ Nominal) samples →
  hardTorqueLimitReached (plexilName (JointPropMap joint)) (ingest samples w)
    = true.
Proof.
  revert w. induction samples as [|[j0 e] samples IH]; intros w Hw Hs; [done|].
  apply Forall_cons in Hs as [Hhead Htail].
  unfold ingest. simpl. apply IH; [|done].
  pose proof (handle_overtorque_sets j0 e w) as Hsets.
  unfold hardTorqueLimitReached in *.
  apply bool_decide_eq_true in Hw. apply bool_decide_eq_true.
  destruct (tier_of_joint j0 e) eqn:Ht; injection Hsets as Hh _;
    rewrite Hh; clear Hh.
  - assert (Hne : plexilName (JointPropMap joint) ≠ plexilName (JointPropMap j0)).
    { intros Hp. apply plexilName_inj in Hp. subst j0. by apply Hhead. }
    set_solver.
  - done.
  - set_solver.
Qed.

Lemma hard_limit_latches_witness :
  hardTorqueLimitReached "ShoulderYaw"
    (ingest [(shoulder_yaw, 65%float); (hand_yaw, 1%float)]
       (ingest [(shoulder_yaw, 85%float)] initial)) = true.
Proof.
  apply (hard_limit_latches shoulder_yaw); [reflexivity|].
  repeat constructor; simpl; intros H; [vm_compute; discriminate|discriminate H].
Defined.

(** X18.  The two sets hold PLEXIL names of joints and nothing else: after
    every run of callbacks from the initial state, both queries answer false
    for a name that is no joint's PLEXIL name, a ROS joint name among
    them. *)
Theorem fault_sets_hold_plexil_names (other : string)
    (msgs : list sensor_msgs.JointState) :
  (∀ joint, other ≠ plexilName (JointPropMap joint)) →
  hardTorqueLimitReached other (receive msgs initial) = false ∧
  softTorqueLimitReached other (receive msgs initial) = false.
Proof.
  intros Hother.
  apply (receive_invariant
           (λ w, hardTorqueLimitReached other w = false ∧
                 softTorqueLimitReached other w = false)); [|done].
  intros msg w [Hh Hso].
  destruct (jointStatesCallback_other msg other w) as [Hh' Hso'].
  { intros i ros_name joint _ _. apply Hother. }
  split; congruence.
Qed.

Lemma fault_sets_hold_plexil_names_witness :
  hardTorqueLimitReached "j_shou_yaw"
    (receive [{| sensor_msgs.name := ["j_shou_yaw"];
                 sensor_msgs.position := [0]%float;
                 sensor_msgs.velocity := [0]%float;
                 sensor_msgs.effort := [90]%float |}] initial) = false.
Proof.
  refine (proj1 (fault_sets_hold_plexil_names "j_shou_yaw" _ _)).
  intros joint. destruct joint; discriminate.
Defined.

(** X19.  [handle_overtorque] is idempotent: the same sample a second time
    leaves the world the first one reached. *)
Theorem handle_overtorque_idempotent (joint : Joint) (e : float) (w : World) :
  handle_overtorque joint e (handle_overtorque joint e w).1
  = handle_overtorque joint e w.
Proof.
  unfold handle_overtorque, set_hard, set_soft, modify, mbind, M_bind, mret, M_ret.
  destruct (_ <=? _)%float; [|destruct (_ <=? _)%float]; simpl;
    do 2 f_equal; set_solver.
Qed.

End TelemetryRuns.
